(** * Session persistence of the todo application

    A shallow embedding of [src/lib/session-persistence.js] (class
    [SessionPersistence]) and the verification of its contract.

    Modelling conventions.
    - A todo and a todo list are records with the fields of the JavaScript
      objects.  Identifiers are integers ([Z]); titles are strings compared
      with [===], i.e. by exact equality of their character sequences.
    - [this._todoLists] is an array of objects owned by the session.  Objects
      are only ever created by [createTodoList] and [addNewTodo] (and by the
      deep copy of the seed data), so no object is shared between two places
      of the store: the store is a tree and is modelled as a value.
    - A reference handed out by [Array.prototype.find] is modelled by the
      position of the object in its array together with the object read
      there; writing through the reference is an update at that position.
    - Every method takes the store and gives back its result together with
      the store it leaves behind. *)

From Stdlib Require Import ZArith String Ascii List Bool Lia.
From stdpp Require Import base tactics decidable option list sorting strings.

Local Open Scope Z_scope.

(** ** Data model *)

Module Todo.
Record t : Type := mk { id : Z; title : string; done : bool }.

(** [todo.done = b] *)
Definition setDone (b : bool) (todo : t) : t :=
  {| id := id todo; title := title todo; done := b |}.

(** [todo.done = !todo.done] *)
Definition flipDone (todo : t) : t := setDone (negb (done todo)) todo.
End Todo.

Module TodoList.
Record t : Type := mk { title : string; id : Z; todos : list Todo.t }.

(** [todoList.title = newTitle] *)
Definition setTitle (newTitle : string) (todoList : t) : t :=
  {| title := newTitle; id := id todoList; todos := todos todoList |}.

(** Any in-place change of the array [todoList.todos]. *)
Definition alterTodos (f : list Todo.t → list Todo.t) (todoList : t) : t :=
  {| title := title todoList; id := id todoList; todos := f (todos todoList) |}.
End TodoList.

(** The state a [SessionPersistence] object works on: the array
    [this._todoLists], and the state of the identifier generator behind
    [nextId()]. *)
Record SessionPersistence (G : Type) : Type := mkSession {
  _todoLists : list TodoList.t;
  idGen : G
}.
Arguments mkSession {G} _ _.
Arguments _todoLists {G} _.
Arguments idGen {G} _.

(** ** Array primitives *)

(** [arr.findIndex(p)]: the position of the first element satisfying [p];
    [None] stands for [-1]. *)
Definition findIndex {A} (P : A → Prop) `{∀ x, Decision (P x)}
    (arr : list A) : option nat :=
  fst <$> list_find P arr.

(** [arr.find(p)]: a reference to the first element satisfying [p] (its
    position and the object there); [None] stands for [undefined]. *)
Definition find {A} (P : A → Prop) `{∀ x, Decision (P x)}
    (arr : list A) : option (nat * A) :=
  list_find P arr.

(** [arr.splice(i, 1)] *)
Definition splice1 {A} (i : nat) (arr : list A) : list A := delete i arr.

(** [arr.push(x)] *)
Definition push {A} (x : A) (arr : list A) : list A := arr ++ [x].

(** ** Collaborators that are not part of the sources at hand *)

(** Modelled from the spec: the module [./deep-copy] is missing.  The spec
    describes it as "an explicit clone operation producing a fully
    independent structural copy", and the comments of [loadTodoList] and
    [loadTodo] say that the copy of [undefined] is [undefined].  Values of
    this embedding carry no identity, so the structural copy of a value is
    that value. *)
Definition deepCopy {A} (x : A) : A := x.

(** Modelled from the spec: the module [./sort] is missing.  The spec says
    that each of the two groups is "ordered by title, case-insensitive" and
    that they are "then merged with undone group preceding done group".
    Titles are compared after mapping the letters [A]..[Z] to lower case,
    character by character. *)
Definition toLowerCaseChar (c : ascii) : ascii :=
  let n := N_of_ascii c in
  if ((65 <=? n) && (n <=? 90))%N then ascii_of_N (n + 32) else c.

Fixpoint toLowerCase (s : string) : string :=
  match s with
  | EmptyString => EmptyString
  | String c s' => String (toLowerCaseChar c) (toLowerCase s')
  end.

(** [a] does not come after [b] when letter case is ignored. *)
Definition title_le (a b : string) : Prop :=
  String.le (toLowerCase a) (toLowerCase b).

Definition compareByTitle {A} (title : A → string) : relation A :=
  λ x y, title_le (title x) (title y).

Global Instance compareByTitle_dec {A} (title : A → string) :
  RelDecision (compareByTitle title).
Proof. intros x y. unfold compareByTitle, title_le. apply _. Defined.

Definition sortByTitle {A} (title : A → string) (arr : list A) : list A :=
  merge_sort (compareByTitle title) arr.

Definition sortTodoLists (undone done : list TodoList.t) : list TodoList.t :=
  sortByTitle TodoList.title undone ++ sortByTitle TodoList.title done.

Definition sortTodos (undone done : list Todo.t) : list Todo.t :=
  sortByTitle Todo.title undone ++ sortByTitle Todo.title done.

(** Modelled from the spec: the module [./next-id] is missing; the spec
    describes it as "an ID generator (produces unique numeric identifiers)".
    The methods below take the generator as a parameter [nextId]; this
    counter is the instance used to run them. *)
Definition counterNextId (currentId : Z) : Z * Z :=
  (currentId + 1, currentId + 1).

(** ** The methods of [SessionPersistence] *)

Section Methods.
Context {G : Type}.
Variable nextId : G → Z * G.

Local Abbreviation Store := (SessionPersistence G).

(** Writing through a reference to the todo list at position [i]. *)
Definition updateTodoList (i : nat) (f : TodoList.t → TodoList.t)
    (sp : Store) : Store :=
  {| _todoLists := alter f i (_todoLists sp); idGen := idGen sp |}.

Definition createTodoList (title : string) (sp : Store) : bool * Store :=
  let (newId, g) := nextId (idGen sp) in
  (true,
   {| _todoLists :=
        push {| TodoList.title := title; TodoList.id := newId;
                TodoList.todos := [] |} (_todoLists sp);
      idGen := g |}).

Definition isDoneTodoList (todoList : TodoList.t) : bool :=
  (0 <? length (TodoList.todos todoList))%nat
  && forallb (λ todo, Todo.done todo) (TodoList.todos todoList).

Definition hasUndoneTodos (todoList : TodoList.t) : bool :=
  existsb (λ todo, negb (Todo.done todo)) (TodoList.todos todoList).

Definition sortedTodoLists (sp : Store) : list TodoList.t :=
  let todoLists := deepCopy (_todoLists sp) in
  let undone :=
    List.filter (λ todoList, negb (isDoneTodoList todoList)) todoLists in
  let done := List.filter (λ todoList, isDoneTodoList todoList) todoLists in
  sortTodoLists undone done.

Definition sortedTodos (todoList : TodoList.t) : list Todo.t :=
  let undone :=
    List.filter (λ todo, negb (Todo.done todo)) (TodoList.todos todoList) in
  let done :=
    List.filter (λ todo, Todo.done todo) (TodoList.todos todoList) in
  deepCopy (sortTodos undone done).

Definition _findTodoList (todoListId : Z) (sp : Store)
    : option (nat * TodoList.t) :=
  find (λ todoList, TodoList.id todoList = todoListId) (_todoLists sp).

Definition _findTodo (todoListId todoId : Z) (sp : Store)
    : option (nat * nat * Todo.t) :=
  match _findTodoList todoListId sp with
  | None => None
  | Some (i, todoList) =>
      match find (λ todo, Todo.id todo = todoId) (TodoList.todos todoList) with
      | None => None
      | Some (j, todo) => Some (i, j, todo)
      end
  end.

Definition loadTodoList (todoListId : Z) (sp : Store) : option TodoList.t :=
  let todoList := snd <$> _findTodoList todoListId sp in
  deepCopy todoList.

Definition loadTodo (todoListId todoId : Z) (sp : Store) : option Todo.t :=
  let todo := snd <$> _findTodo todoListId todoId sp in
  deepCopy todo.

Definition toggleDoneTodo (todoListId todoId : Z) (sp : Store)
    : bool * Store :=
  match _findTodo todoListId todoId sp with
  | None => (false, sp)
  | Some (i, j, _) =>
      (true,
       updateTodoList i
         (TodoList.alterTodos
            (alter Todo.flipDone j))
         sp)
  end.

Definition deleteTodo (todoListId todoId : Z) (sp : Store) : bool * Store :=
  match _findTodoList todoListId sp with
  | None => (false, sp)
  | Some (i, todoList) =>
      match findIndex (λ todo, Todo.id todo = todoId)
              (TodoList.todos todoList) with
      | None => (false, sp)
      | Some todoIndex =>
          (true, updateTodoList i (TodoList.alterTodos (splice1 todoIndex)) sp)
      end
  end.

Definition deleteTodoList (todoListId : Z) (sp : Store) : bool * Store :=
  match findIndex (λ todoList, TodoList.id todoList = todoListId)
          (_todoLists sp) with
  | None => (false, sp)
  | Some todoListIndex =>
      (true,
       {| _todoLists := splice1 todoListIndex (_todoLists sp);
          idGen := idGen sp |})
  end.

Definition markAllDone (todoListId : Z) (sp : Store) : bool * Store :=
  match _findTodoList todoListId sp with
  | None => (false, sp)
  | Some (i, _) =>
      (true,
       updateTodoList i (TodoList.alterTodos (map (Todo.setDone true))) sp)
  end.

Definition addNewTodo (todoListId : Z) (title : string) (sp : Store)
    : bool * Store :=
  match _findTodoList todoListId sp with
  | None => (false, sp)
  | Some (i, _) =>
      let (newId, g) := nextId (idGen sp) in
      (true,
       {| _todoLists :=
            alter
              (TodoList.alterTodos
                 (push {| Todo.id := newId; Todo.title := title;
                          Todo.done := false |}))
              i (_todoLists sp);
          idGen := g |})
  end.

Definition renameTodoList (todoListId : Z) (newTitle : string) (sp : Store)
    : bool * Store :=
  match _findTodoList todoListId sp with
  | None => (false, sp)
  | Some (i, _) => (true, updateTodoList i (TodoList.setTitle newTitle) sp)
  end.

Definition isUniqueList (title : string) (sp : Store) : bool :=
  negb (existsb (λ todoList, bool_decide (TodoList.title todoList = title))
          (_todoLists sp)).

Definition isUniqueConstraintViolation {E} (_error : E) : bool := false.

End Methods.

(** ** Construction *)

(** The session object handed to the constructor, as far as the class reads
    and writes it: the field [todoLists], [None] when it is not set (an
    array, even an empty one, is truthy for [||]). *)
Record Session : Type := mkSessionObject {
  todoLists : option (list TodoList.t)
}.

(** [constructor(session)].  The module [./seed-data] is not among the
    sources; its value is the parameter [SeedData].  [g] is the state the
    identifier generator is in when the object is built.  The result is the
    object and the session as the constructor leaves it. *)
Definition new {G : Type} (SeedData : list TodoList.t) (g : G)
    (session : Session) : SessionPersistence G * Session :=
  let lists :=
    match todoLists session with
    | Some stored => stored
    | None => deepCopy SeedData
    end in
  ({| _todoLists := lists; idGen := g |}, {| todoLists := Some lists |}).

(** ** The two groups of [sortedTodoLists], in the words of the contract *)

(** A list that has an undone todo, or no todo at all. *)
Definition inUndoneGroup (todoList : TodoList.t) : Prop :=
  hasUndoneTodos todoList = true ∨ TodoList.todos todoList = [].

(** A list all of whose todos are done, and that has one at least. *)
Definition inDoneGroup (todoList : TodoList.t) : Prop :=
  TodoList.todos todoList ≠ [] ∧
  Forall (λ todo, Todo.done todo = true) (TodoList.todos todoList).

(** ** Stores used to run the methods *)

Definition todo (id : Z) (title : string) (done : bool) : Todo.t :=
  Todo.mk id title done.

Definition emptyList : TodoList.t := TodoList.mk "chores" 1 [].

Definition workList : TodoList.t :=
  TodoList.mk "Work" 2 [todo 1 "A" false; todo 2 "B" true].

Definition doneList : TodoList.t :=
  TodoList.mk "apples" 3 [todo 1 "buy" true].

Definition sampleStore : SessionPersistence Z :=
  {| _todoLists := [workList; doneList; emptyList]; idGen := 3 |}.

(** ** Lookups *)

Section Lookup.
Context {G : Type}.
Implicit Types (sp : SessionPersistence G) (todoList : TodoList.t).

Lemma _findTodoList_None sp todoListId :
  _findTodoList todoListId sp = None ↔
  ∀ todoList, todoList ∈ _todoLists sp → TodoList.id todoList ≠ todoListId.
Proof.
  unfold _findTodoList, find. rewrite list_find_None, Forall_forall. done.
Qed.

Lemma _findTodoList_Some sp todoListId i todoList :
  _findTodoList todoListId sp = Some (i, todoList) ↔
  _todoLists sp !! i = Some todoList ∧ TodoList.id todoList = todoListId ∧
  ∀ k other, _todoLists sp !! k = Some other → (k < i)%nat →
             TodoList.id other ≠ todoListId.
Proof. unfold _findTodoList, find. by rewrite list_find_Some. Qed.

Lemma findIndex_None {A} (P : A → Prop) `{∀ x, Decision (P x)} (arr : list A) :
  findIndex P arr = None ↔ list_find P arr = None.
Proof. unfold findIndex. destruct (list_find P arr); naive_solver. Qed.

Lemma findIndex_Some {A} (P : A → Prop) `{∀ x, Decision (P x)}
    (arr : list A) (i : nat) :
  findIndex P arr = Some i ↔ ∃ x, list_find P arr = Some (i, x).
Proof.
  unfold findIndex. destruct (list_find P arr) as [[k y]|]; simpl.
  - split; [intros [= ->]; eauto | intros [x [= -> ->]]; done].
  - split; [done | intros [x ?]; done].
Qed.

(** Writing through a reference leaves the reference in place as long as the
    object still satisfies the predicate it was found by. *)
Lemma list_find_alter_same {A} (P : A → Prop) `{∀ x, Decision (P x)}
    (f : A → A) (arr : list A) (i : nat) (x : A) :
  list_find P arr = Some (i, x) → P (f x) →
  list_find P (alter f i arr) = Some (i, f x).
Proof.
  intros (Hi & HP & Hleast)%list_find_Some Hf. apply list_find_Some.
  split_and!.
  - by rewrite list_lookup_alter_eq, Hi.
  - done.
  - intros k y Hk Hlt. rewrite list_lookup_alter_ne in Hk by lia. eauto.
Qed.

End Lookup.

(** ** Completion status and title uniqueness *)

Section Queries.
Context {G : Type}.
Variable nextId : G → Z * G.
Implicit Types (sp : SessionPersistence G) (todoList : TodoList.t).

Lemma isUniqueList_true sp (title : string) :
  isUniqueList title sp = true ↔
  ∀ todoList, todoList ∈ _todoLists sp → TodoList.title todoList ≠ title.
Proof.
  unfold isUniqueList. rewrite negb_true_iff, <- not_true_iff_false.
  rewrite existsb_exists. split.
  - intros Hno todoList Hin Heq. apply Hno. exists todoList.
    split; [by apply list_elem_of_In | by apply bool_decide_eq_true].
  - intros Hall (todoList & Hin%list_elem_of_In & Heq%bool_decide_eq_true).
    by eapply Hall.
Qed.

Lemma isDoneTodoList_true todoList :
  isDoneTodoList todoList = true ↔ inDoneGroup todoList.
Proof.
  unfold isDoneTodoList, inDoneGroup.
  rewrite andb_true_iff, Nat.ltb_lt, forallb_forall, Forall_forall.
  setoid_rewrite <- list_elem_of_In.
  destruct (TodoList.todos todoList) as [|t ts]; simpl.
  - split; [lia | by intros [? _]].
  - split; (intros [_ Hall]; split; [|done]); [done | lia].
Qed.

(** C2. [isDoneTodoList] answers [true] exactly for the lists that hold at
    least one todo and all of whose todos have [done = true]; for a list
    without todos it answers [false]. *)
Theorem isDoneTodoList_spec todoList :
  (isDoneTodoList todoList = true ↔
     TodoList.todos todoList ≠ [] ∧
     ∀ todo, todo ∈ TodoList.todos todoList → Todo.done todo = true) ∧
  (TodoList.todos todoList = [] → isDoneTodoList todoList = false).
Proof.
  split.
  - rewrite isDoneTodoList_true. unfold inDoneGroup. by rewrite Forall_forall.
  - unfold isDoneTodoList. by intros ->.
Qed.

(** C5. Whatever the store and the title, once [createTodoList title] has
    run, [isUniqueList title] answers [false]. *)
Theorem createTodoList_then_isUniqueList sp (title : string) :
  ∃ sp', createTodoList nextId title sp = (true, sp') ∧
         isUniqueList title sp' = false.
Proof.
  unfold createTodoList. destruct (nextId (idGen sp)) as [newId g].
  eexists. split; [reflexivity|].
  apply not_true_iff_false. rewrite isUniqueList_true. simpl. intros Hall.
  apply (Hall (TodoList.mk title newId [])); [|done].
  unfold push. apply elem_of_app. right. by apply list_elem_of_singleton.
Qed.

(** C7. [isUniqueList title] answers [true] exactly when no stored list has
    this very title.  The comparison is exact: a stored title that differs
    from [title], be it only in the case of its letters, does not count, so
    [title] stays unique when a list with such a title is created. *)
Theorem isUniqueList_spec sp (title : string) :
  (isUniqueList title sp = true ↔
     ∀ todoList, todoList ∈ _todoLists sp → TodoList.title todoList ≠ title) ∧
  (∀ (other : string) sp',
     other ≠ title → toLowerCase other = toLowerCase title →
     isUniqueList title sp = true →
     createTodoList nextId other sp = (true, sp') →
     isUniqueList title sp' = true).
Proof.
  split; [apply isUniqueList_true|].
  intros other sp' Hne _ Huniq Hcreate. unfold createTodoList in Hcreate.
  destruct (nextId (idGen sp)) as [newId g]. injection Hcreate as <-.
  rewrite isUniqueList_true in Huniq |- *. simpl. unfold push.
  intros todoList [Hin | ->%list_elem_of_singleton]%elem_of_app; [eauto|done].
Qed.

End Queries.

(** ** Mutating methods: failure leaves the store alone *)

Section Failure.
Context {G : Type}.
Variable nextId : G → Z * G.
Implicit Types (sp : SessionPersistence G) (todoList : TodoList.t).

Lemma _findTodo_None_list sp todoListId todoId :
  _findTodoList todoListId sp = None → _findTodo todoListId todoId sp = None.
Proof. unfold _findTodo. by intros ->. Qed.

Lemma findIndex_unknown_list sp todoListId :
  Forall (λ todoList, TodoList.id todoList ≠ todoListId) (_todoLists sp) →
  _findTodoList todoListId sp = None ∧
  findIndex (λ todoList, TodoList.id todoList = todoListId) (_todoLists sp)
    = None.
Proof.
  intros Hall. assert (_findTodoList todoListId sp = None) as Hnone.
  { apply _findTodoList_None. by apply Forall_forall. }
  split; [done|]. by apply findIndex_None.
Qed.

(** C3. When [todoListId] is the id of no stored list, each of the six
    mutating methods returns [false] and hands back the store as it was, the
    identifier generator included.  Each call returns a value: the guard
    [if (!todoList) return false] is reached before any property of the
    missing list is read. *)
Theorem unknown_list_rejected sp (todoListId : Z) :
  Forall (λ todoList, TodoList.id todoList ≠ todoListId) (_todoLists sp) →
  (∀ todoId, toggleDoneTodo todoListId todoId sp = (false, sp)) ∧
  (∀ todoId, deleteTodo todoListId todoId sp = (false, sp)) ∧
  deleteTodoList todoListId sp = (false, sp) ∧
  markAllDone todoListId sp = (false, sp) ∧
  (∀ title, addNewTodo nextId todoListId title sp = (false, sp)) ∧
  (∀ newTitle, renameTodoList todoListId newTitle sp = (false, sp)).
Proof.
  intros Hall. apply findIndex_unknown_list in Hall as [Hfind Hindex].
  split_and!.
  - intros todoId. unfold toggleDoneTodo.
    by rewrite (_findTodo_None_list _ _ _ Hfind).
  - intros todoId. unfold deleteTodo. by rewrite Hfind.
  - unfold deleteTodoList. by rewrite Hindex.
  - unfold markAllDone. by rewrite Hfind.
  - intros title. unfold addNewTodo. by rewrite Hfind.
  - intros newTitle. unfold renameTodoList. by rewrite Hfind.
Qed.

(** C8. Let [todoListId] designate a stored list, that is, let [todoList] be
    the list [_findTodoList] resolves it to (the first list with this id,
    the only one when ids are distinct).  When no todo of that list has the
    id [todoId], [deleteTodo] and [toggleDoneTodo] both return [false] and
    hand back the store as it was. *)
Theorem unknown_todo_rejected sp (todoListId todoId : Z) (i : nat) todoList :
  _findTodoList todoListId sp = Some (i, todoList) →
  Forall (λ todo, Todo.id todo ≠ todoId) (TodoList.todos todoList) →
  deleteTodo todoListId todoId sp = (false, sp) ∧
  toggleDoneTodo todoListId todoId sp = (false, sp).
Proof.
  intros Hfind Hall.
  assert (list_find (λ todo, Todo.id todo = todoId) (TodoList.todos todoList)
          = None) as Hnone by by apply list_find_None.
  split.
  - unfold deleteTodo. rewrite Hfind.
    by rewrite (proj2 (findIndex_None _ _) Hnone).
  - unfold toggleDoneTodo, _findTodo, find. by rewrite Hfind, Hnone.
Qed.

End Failure.

(** ** Toggling a todo *)

Section Toggle.
Context {G : Type}.
Implicit Types (sp : SessionPersistence G) (todoList : TodoList.t).

Lemma flipDone_involutive (todo : Todo.t) : Todo.flipDone (Todo.flipDone todo) = todo.
Proof. destruct todo as [? ? []]; reflexivity. Qed.

Lemma alter_twice {A} (f : A → A) (i : nat) (arr : list A) :
  (∀ x, f (f x) = x) → alter f i (alter f i arr) = arr.
Proof.
  intros Hf. revert i.
  induction arr as [|x arr IH]; intros [|i]; simpl; f_equal; auto.
  apply IH.
Qed.

Lemma _findTodo_Some sp todoListId todoId i j (todo : Todo.t) :
  _findTodo todoListId todoId sp = Some (i, j, todo) ↔
  ∃ todoList,
    _findTodoList todoListId sp = Some (i, todoList) ∧
    list_find (λ t, Todo.id t = todoId) (TodoList.todos todoList)
      = Some (j, todo).
Proof.
  unfold _findTodo, find.
  destruct (_findTodoList todoListId sp) as [[i' todoList]|].
  - destruct (list_find _ (TodoList.todos todoList)) as [[j' todo']|] eqn:Hj.
    + split.
      * intros [= -> -> ->]. eauto.
      * intros (todoList' & [= -> <-] & Hj'). congruence.
    + split; [done|]. intros (todoList' & [= -> <-] & Hj'). congruence.
  - split; [done|]. by intros (todoList' & ? & _).
Qed.

Lemma toggleDoneTodo_found sp todoListId todoId i j (todo : Todo.t) :
  _findTodo todoListId todoId sp = Some (i, j, todo) →
  toggleDoneTodo todoListId todoId sp =
    (true, updateTodoList i (TodoList.alterTodos (alter Todo.flipDone j)) sp).
Proof. unfold toggleDoneTodo. by intros ->. Qed.

(** The reference found before the toggle is the one found after it. *)
Lemma _findTodo_toggled sp todoListId todoId i j (todo : Todo.t) :
  _findTodo todoListId todoId sp = Some (i, j, todo) →
  _findTodo todoListId todoId
    (updateTodoList i (TodoList.alterTodos (alter Todo.flipDone j)) sp)
  = Some (i, j, Todo.flipDone todo).
Proof.
  intros Hfind. apply _findTodo_Some in Hfind as (todoList & Hlist & Htodo).
  apply _findTodo_Some.
  exists (TodoList.alterTodos (alter Todo.flipDone j) todoList). split.
  - unfold _findTodoList, find, updateTodoList. simpl.
    apply list_find_alter_same; [done|]. simpl.
    by apply _findTodoList_Some in Hlist as (_ & ? & _).
  - simpl. apply list_find_alter_same; [done|]. simpl.
    by apply list_find_Some in Htodo as (_ & ? & _).
Qed.

(** C4. Let [todoListId] and [todoId] designate a stored todo.  Two calls of
    [toggleDoneTodo] with these ids both succeed; after the first the [done]
    flag of that todo is the negation of its first value, after the second
    it is the first value again (and the whole store is back to what it
    was). *)
Theorem toggleDoneTodo_involutive sp (todoListId todoId : Z) i j
    (todo : Todo.t) :
  _findTodo todoListId todoId sp = Some (i, j, todo) →
  ∃ sp1 sp2,
    toggleDoneTodo todoListId todoId sp = (true, sp1) ∧
    toggleDoneTodo todoListId todoId sp1 = (true, sp2) ∧
    Todo.done <$> loadTodo todoListId todoId sp1
      = Some (negb (Todo.done todo)) ∧
    Todo.done <$> loadTodo todoListId todoId sp2 = Some (Todo.done todo) ∧
    sp2 = sp.
Proof.
  intros Hfind. pose proof (_findTodo_toggled _ _ _ _ _ _ Hfind) as Hfind1.
  set (sp1 := updateTodoList i (TodoList.alterTodos (alter Todo.flipDone j)) sp)
    in *.
  assert (updateTodoList i (TodoList.alterTodos (alter Todo.flipDone j)) sp1 = sp)
    as Hback.
  { unfold sp1, updateTodoList. destruct sp as [lists g]. simpl. f_equal.
    apply alter_twice. intros [title id todos]. unfold TodoList.alterTodos.
    simpl. f_equal. apply alter_twice, flipDone_involutive. }
  exists sp1, sp. split_and!.
  - by apply toggleDoneTodo_found with todo.
  - rewrite (toggleDoneTodo_found _ _ _ _ _ _ Hfind1). by rewrite Hback.
  - unfold loadTodo, deepCopy. by rewrite Hfind1.
  - unfold loadTodo, deepCopy. by rewrite Hfind.
  - done.
Qed.

(** C10. Let [todoListId] and [todoId] designate a stored todo, found at
    position [j] of the list at position [i].  [toggleDoneTodo] succeeds, and
    the store it leaves differs from the old one in the [done] flag of that
    todo only: the generator, the number of lists and every list at another
    position are the same; the list at position [i] keeps its title, its id
    and the number of its todos, and every todo of it at another position;
    the todo at position [j] keeps its id and its title and has its [done]
    flag negated. *)
Theorem toggleDoneTodo_frame sp (todoListId todoId : Z) i j (todo : Todo.t) :
  _findTodo todoListId todoId sp = Some (i, j, todo) →
  ∃ sp' todoList todoList' todo',
    toggleDoneTodo todoListId todoId sp = (true, sp') ∧
    idGen sp' = idGen sp ∧
    length (_todoLists sp') = length (_todoLists sp) ∧
    (∀ k, k ≠ i → _todoLists sp' !! k = _todoLists sp !! k) ∧
    _todoLists sp !! i = Some todoList ∧
    _todoLists sp' !! i = Some todoList' ∧
    TodoList.title todoList' = TodoList.title todoList ∧
    TodoList.id todoList' = TodoList.id todoList ∧
    length (TodoList.todos todoList') = length (TodoList.todos todoList) ∧
    (∀ k, k ≠ j →
          TodoList.todos todoList' !! k = TodoList.todos todoList !! k) ∧
    TodoList.todos todoList !! j = Some todo ∧
    TodoList.todos todoList' !! j = Some todo' ∧
    Todo.id todo' = Todo.id todo ∧
    Todo.title todo' = Todo.title todo ∧
    Todo.done todo' = negb (Todo.done todo).
Proof.
  intros Hfind.
  destruct (proj1 (_findTodo_Some _ _ _ _ _ _) Hfind)
    as (todoList & Hlist & Htodo).
  apply _findTodoList_Some in Hlist as (Hi & _ & _).
  apply list_find_Some in Htodo as (Hj & _ & _).
  exists (updateTodoList i (TodoList.alterTodos (alter Todo.flipDone j)) sp),
    todoList, (TodoList.alterTodos (alter Todo.flipDone j) todoList),
    (Todo.flipDone todo).
  split_and!; try done.
  - by apply toggleDoneTodo_found with todo.
  - simpl. apply length_alter.
  - intros k Hk. simpl. by apply list_lookup_alter_ne.
  - simpl. by rewrite list_lookup_alter_eq, Hi.
  - simpl. apply length_alter.
  - intros k Hk. simpl. by apply list_lookup_alter_ne.
  - simpl. by rewrite list_lookup_alter_eq, Hj.
Qed.

End Toggle.

(** ** Marking a list done, deleting a list *)

Section ListLevel.
Context {G : Type}.
Implicit Types (sp : SessionPersistence G) (todoList : TodoList.t).

Lemma alterTodos_map_empty (f : Todo.t → Todo.t) todoList :
  TodoList.todos todoList = [] →
  TodoList.alterTodos (map f) todoList = todoList.
Proof. destruct todoList as [title id todos]. simpl. by intros ->. Qed.

(** C9. Let the store hold, at some position [k], a list with id
    [todoListId] and no todos.  [markAllDone todoListId] returns [true]; the
    list at position [k] is the same afterwards, and [isDoneTodoList] still
    answers [false] for it. *)
Theorem markAllDone_empty_list sp (todoListId : Z) (k : nat) todoList :
  _todoLists sp !! k = Some todoList →
  TodoList.id todoList = todoListId →
  TodoList.todos todoList = [] →
  ∃ sp', markAllDone todoListId sp = (true, sp') ∧
         _todoLists sp' !! k = Some todoList ∧
         isDoneTodoList todoList = false.
Proof.
  intros Hk Hid Hempty. unfold markAllDone.
  destruct (_findTodoList todoListId sp) as [[i found]|] eqn:Hfind.
  - eexists. split; [reflexivity|]. split.
    + simpl. destruct (decide (i = k)) as [->|Hne].
      * rewrite list_lookup_alter_eq, Hk. simpl.
        by rewrite alterTodos_map_empty.
      * by rewrite list_lookup_alter_ne.
    + unfold isDoneTodoList. by rewrite Hempty.
  - exfalso. rewrite _findTodoList_None in Hfind.
    eapply Hfind; [|done]. by eapply list_elem_of_lookup_2.
Qed.

(** C6. In a store whose lists have pairwise distinct ids, once
    [deleteTodoList todoListId] has returned [true], no stored list has the
    id [todoListId] and [loadTodoList todoListId] returns [undefined]. *)
Theorem deleteTodoList_then_loadTodoList sp (todoListId : Z) sp' :
  NoDup (TodoList.id <$> _todoLists sp) →
  deleteTodoList todoListId sp = (true, sp') →
  loadTodoList todoListId sp' = None ∧
  Forall (λ todoList, TodoList.id todoList ≠ todoListId) (_todoLists sp').
Proof.
  intros Hdistinct Hdelete. unfold deleteTodoList in Hdelete.
  destruct (findIndex _ (_todoLists sp)) as [i|] eqn:Hindex; [|done].
  injection Hdelete as <-.
  apply findIndex_Some in Hindex as (deleted & Hfound).
  apply list_find_Some in Hfound as (Hi & Hid & _).
  assert (Forall (λ todoList, TodoList.id todoList ≠ todoListId)
            (splice1 i (_todoLists sp))) as Hgone.
  { apply Forall_lookup. intros k other Hk Hother. unfold splice1 in Hk.
    assert (∃ k', k' ≠ i ∧ _todoLists sp !! k' = Some other) as (k' & Hne & Hk').
    { destruct (decide (k < i)%nat).
      - exists k. split; [lia|]. by rewrite list_lookup_delete_lt in Hk.
      - exists (S k). split; [lia|].
        by rewrite list_lookup_delete_ge in Hk by lia. }
    apply Hne. eapply (NoDup_lookup _ _ _ todoListId Hdistinct).
    - by rewrite list_lookup_fmap, Hk'; simpl; rewrite Hother.
    - by rewrite list_lookup_fmap, Hi; simpl; rewrite Hid. }
  split; [|done]. unfold loadTodoList, deepCopy.
  assert (_findTodoList todoListId
            {| _todoLists := splice1 i (_todoLists sp); idGen := idGen sp |}
          = None) as ->; [|done].
  apply _findTodoList_None. simpl. by apply Forall_forall.
Qed.

End ListLevel.

(** ** Sorting the todo lists *)

Section Sorting.
Context {G : Type}.
Implicit Types (sp : SessionPersistence G) (todoList : TodoList.t).

#[local] Instance compareByTitle_total {A} (title : A → string) :
  Total (compareByTitle title).
Proof. intros x y. unfold compareByTitle, title_le. apply (total String.le). Qed.

#[local] Instance compareByTitle_trans {A} (title : A → string) :
  Transitive (compareByTitle title).
Proof.
  intros x y z. unfold compareByTitle, title_le. apply (transitivity (R:=String.le)).
Qed.

Lemma sortByTitle_Permutation {A} (title : A → string) (arr : list A) :
  sortByTitle title arr ≡ₚ arr.
Proof. apply merge_sort_Permutation. Qed.

Lemma sortByTitle_sorted {A} (title : A → string) (arr : list A) :
  StronglySorted (compareByTitle title) (sortByTitle title arr).
Proof. apply StronglySorted_merge_sort; apply _. Qed.

Lemma StronglySorted_lookup {A} (R : relation A) (arr : list A) i j a b :
  StronglySorted R arr → arr !! i = Some a → arr !! j = Some b → (i < j)%nat →
  R a b.
Proof.
  intros Hsorted. revert i j.
  induction Hsorted as [|x arr Hsorted IH Hall]; intros i j Hi Hj Hlt; [done|].
  destruct j as [|j]; [lia|]. simpl in Hj. destruct i as [|i]; simpl in Hi.
  - injection Hi as ->. eapply Forall_lookup_1; eauto.
  - apply (IH i j); [done | done | lia].
Qed.

Lemma filter_split_Permutation {A} (p : A → bool) (arr : list A) :
  List.filter (λ x, negb (p x)) arr ++ List.filter p arr ≡ₚ arr.
Proof.
  induction arr as [|x arr IH]; simpl; [done|].
  destruct (p x); simpl.
  - rewrite <- Permutation_middle. by f_equiv.
  - by f_equiv.
Qed.

Lemma forallb_false_existsb {A} (p : A → bool) (arr : list A) :
  forallb p arr = false ↔ existsb (λ x, negb (p x)) arr = true.
Proof.
  induction arr as [|x arr IH]; simpl; [done|].
  destruct (p x); simpl; [done | by split].
Qed.

Lemma inUndoneGroup_iff todoList :
  inUndoneGroup todoList ↔ isDoneTodoList todoList = false.
Proof.
  unfold inUndoneGroup, isDoneTodoList, hasUndoneTodos.
  destruct (TodoList.todos todoList) as [|t ts]; [by split; auto|].
  replace (0 <? length (t :: ts))%nat with true by done.
  rewrite andb_true_l, forallb_false_existsb. split; [|by left].
  by intros [?|?].
Qed.

Lemma inDoneGroup_iff todoList :
  inDoneGroup todoList ↔ isDoneTodoList todoList = true.
Proof. by rewrite isDoneTodoList_true. Qed.

(** The elements of the sorted front group are undone lists, those of the
    sorted back group are done lists. *)
Lemma sorted_groups sp :
  Forall (λ todoList, isDoneTodoList todoList = false)
    (sortByTitle TodoList.title
       (List.filter (λ todoList, negb (isDoneTodoList todoList))
          (_todoLists sp))) ∧
  Forall (λ todoList, isDoneTodoList todoList = true)
    (sortByTitle TodoList.title
       (List.filter (λ todoList, isDoneTodoList todoList) (_todoLists sp))).
Proof.
  split; rewrite sortByTitle_Permutation; apply Forall_forall;
    intros todoList Hin; apply list_elem_of_In, filter_In in Hin as [_ Hp].
  - by apply negb_true_iff.
  - done.
Qed.

(** C1. [sortedTodoLists] returns the stored lists, rearranged so that
    every list with an undone todo and every list without todos stands before
    every list whose todos are all done, and so that inside each of the two
    groups the titles never decrease when letter case is ignored. *)
Theorem sortedTodoLists_order sp :
  sortedTodoLists sp ≡ₚ _todoLists sp ∧
  (∀ i j a b,
     sortedTodoLists sp !! i = Some a → sortedTodoLists sp !! j = Some b →
     inUndoneGroup a → inDoneGroup b → (i < j)%nat) ∧
  (∀ i j a b,
     sortedTodoLists sp !! i = Some a → sortedTodoLists sp !! j = Some b →
     (i < j)%nat →
     (inUndoneGroup a ∧ inUndoneGroup b) ∨ (inDoneGroup a ∧ inDoneGroup b) →
     title_le (TodoList.title a) (TodoList.title b)).
Proof.
  destruct (sorted_groups sp) as [Hfront Hback].
  unfold sortedTodoLists, sortTodoLists, deepCopy.
  set (front := sortByTitle TodoList.title
                  (List.filter (λ l, negb (isDoneTodoList l)) (_todoLists sp)))
    in *.
  set (back := sortByTitle TodoList.title
                 (List.filter (λ l, isDoneTodoList l) (_todoLists sp))) in *.
  assert (∀ i a, (front ++ back) !! i = Some a → isDoneTodoList a = false →
                 front !! i = Some a) as Hin_front.
  { intros i a [?|[_ Hi]]%lookup_app_Some Ha; [done|].
    pose proof (Forall_lookup_1 _ _ _ _ Hback Hi). congruence. }
  assert (∀ i a, (front ++ back) !! i = Some a → isDoneTodoList a = true →
                 (length front ≤ i)%nat ∧ back !! (i - length front)%nat = Some a)
    as Hin_back.
  { intros i a [Hi|?]%lookup_app_Some Ha; [|done].
    pose proof (Forall_lookup_1 _ _ _ _ Hfront Hi). congruence. }
  split_and!.
  - unfold front, back. rewrite !sortByTitle_Permutation.
    apply filter_split_Permutation.
  - intros i j a b Hi Hj Ha%inUndoneGroup_iff Hb%inDoneGroup_iff.
    apply Hin_front in Hi; [|done]. apply Hin_back in Hj as [Hj _]; [|done].
    apply lookup_lt_Some in Hi. lia.
  - intros i j a b Hi Hj Hlt [[Ha Hb]|[Ha Hb]].
    + apply inUndoneGroup_iff in Ha, Hb.
      apply Hin_front in Hi, Hj; [|done..].
      apply (StronglySorted_lookup (compareByTitle TodoList.title)
               front i j a b); [apply sortByTitle_sorted | done..].
    + apply inDoneGroup_iff in Ha, Hb.
      apply Hin_back in Hi as [Hle Hi]; [|done].
      apply Hin_back in Hj as [Hle' Hj]; [|done].
      apply (StronglySorted_lookup (compareByTitle TodoList.title)
               back (i - length front) (j - length front) a b);
        [apply sortByTitle_sorted | done | done | lia].
Qed.

End Sorting.

(** ** The contract at work on [sampleStore] *)

Example sortedTodoLists_sampleStore :
  sortedTodoLists sampleStore = [emptyList; workList; doneList].
Proof. vm_compute. reflexivity. Qed.

Example sortedTodos_workList :
  Todo.title <$> sortedTodos workList = ["A"; "B"].
Proof. vm_compute. reflexivity. Qed.

(** Without distinct ids [deleteTodoList] removes the first list with the id
    only, and a later one is still found. *)
Example deleteTodoList_duplicate_ids :
  let sp :=
    {| _todoLists := [workList; TodoList.mk "copy" 2 []]; idGen := 2 |} in
  fst (deleteTodoList 2 sp) = true ∧
  loadTodoList 2 (snd (deleteTodoList 2 sp)) = Some (TodoList.mk "copy" 2 []).
Proof. split; vm_compute; reflexivity. Qed.

Example markAllDone_workList :
  TodoList.todos <$> loadTodoList 2 (snd (markAllDone 2 sampleStore))
  = Some [todo 1 "A" true; todo 2 "B" true].
Proof. vm_compute. reflexivity. Qed.

Lemma sortedTodoLists_order_witness :
  (sortedTodoLists sampleStore !! 1%nat = Some workList ∧
   sortedTodoLists sampleStore !! 2%nat = Some doneList ∧
   inUndoneGroup workList ∧ inDoneGroup doneList ∧ (1 < 2)%nat) ∧
  (sortedTodoLists sampleStore !! 0%nat = Some emptyList ∧
   inUndoneGroup emptyList ∧ (0 < 1)%nat ∧
   title_le (TodoList.title emptyList) (TodoList.title workList)).
Proof.
  destruct (sortedTodoLists_order sampleStore) as (_ & Hgroups & Htitles).
  assert (sortedTodoLists sampleStore !! 0%nat = Some emptyList) as H0
    by (vm_compute; reflexivity).
  assert (sortedTodoLists sampleStore !! 1%nat = Some workList) as H1
    by (vm_compute; reflexivity).
  assert (sortedTodoLists sampleStore !! 2%nat = Some doneList) as H2
    by (vm_compute; reflexivity).
  assert (inUndoneGroup emptyList) as Hempty by (right; reflexivity).
  assert (inUndoneGroup workList) as Hwork by (left; reflexivity).
  assert (inDoneGroup doneList) as Hdone
    by (split; [discriminate | repeat constructor]).
  split.
  - split_and!; [done..|]. exact (Hgroups _ _ _ _ H1 H2 Hwork Hdone).
  - split_and!; [done | done | lia |].
    apply (Htitles 0%nat 1%nat emptyList workList H0 H1); [lia | by left].
Defined.

Lemma isDoneTodoList_spec_witness :
  (TodoList.todos doneList ≠ [] ∧
   ∀ todo, todo ∈ TodoList.todos doneList → Todo.done todo = true) ∧
  isDoneTodoList doneList = true ∧
  TodoList.todos emptyList = [] ∧
  isDoneTodoList emptyList = false.
Proof.
  assert (TodoList.todos doneList ≠ [] ∧
          ∀ todo, todo ∈ TodoList.todos doneList → Todo.done todo = true)
    as Hdone.
  { split; [discriminate|]. simpl.
    intros t Ht. apply list_elem_of_singleton in Ht. by rewrite Ht. }
  split; [exact Hdone|]. split; [|split; [reflexivity|]].
  - exact (proj2 (proj1 (isDoneTodoList_spec doneList)) Hdone).
  - exact (proj2 (isDoneTodoList_spec emptyList) eq_refl).
Defined.

Lemma unknown_list_rejected_witness :
  Forall (λ todoList, TodoList.id todoList ≠ 99999) (_todoLists sampleStore) ∧
  (∀ todoId, toggleDoneTodo 99999 todoId sampleStore = (false, sampleStore)) ∧
  (∀ todoId, deleteTodo 99999 todoId sampleStore = (false, sampleStore)) ∧
  deleteTodoList 99999 sampleStore = (false, sampleStore) ∧
  markAllDone 99999 sampleStore = (false, sampleStore) ∧
  (∀ title,
     addNewTodo counterNextId 99999 title sampleStore = (false, sampleStore)) ∧
  (∀ newTitle,
     renameTodoList 99999 newTitle sampleStore = (false, sampleStore)).
Proof.
  assert (Forall (λ todoList, TodoList.id todoList ≠ 99999)
            (_todoLists sampleStore)) as Hnone
    by (repeat constructor; discriminate).
  split; [exact Hnone|].
  exact (unknown_list_rejected counterNextId sampleStore 99999 Hnone).
Defined.

Lemma toggleDoneTodo_involutive_witness :
  _findTodo 2 1 sampleStore = Some (0%nat, 0%nat, todo 1 "A" false) ∧
  ∃ sp1 sp2,
    toggleDoneTodo 2 1 sampleStore = (true, sp1) ∧
    toggleDoneTodo 2 1 sp1 = (true, sp2) ∧
    Todo.done <$> loadTodo 2 1 sp1 = Some true ∧
    Todo.done <$> loadTodo 2 1 sp2 = Some false ∧
    sp2 = sampleStore.
Proof.
  assert (_findTodo 2 1 sampleStore = Some (0%nat, 0%nat, todo 1 "A" false))
    as Hfind by (vm_compute; reflexivity).
  split; [exact Hfind|].
  exact (toggleDoneTodo_involutive sampleStore 2 1 _ _ _ Hfind).
Defined.

Example createTodoList_sampleStore :
  isUniqueList "errands" sampleStore = true ∧
  isUniqueList "errands"
    (snd (createTodoList counterNextId "errands" sampleStore)) = false.
Proof. split; reflexivity. Qed.

Lemma deleteTodoList_then_loadTodoList_witness :
  NoDup (TodoList.id <$> _todoLists sampleStore) ∧
  deleteTodoList 2 sampleStore
    = (true, {| _todoLists := [doneList; emptyList]; idGen := 3 |}) ∧
  loadTodoList 2 {| _todoLists := [doneList; emptyList]; idGen := 3 |} = None ∧
  Forall (λ todoList, TodoList.id todoList ≠ 2) [doneList; emptyList].
Proof.
  assert (NoDup (TodoList.id <$> _todoLists sampleStore)) as Hdistinct
    by (apply (bool_decide_unpack _); vm_compute; exact I).
  assert (deleteTodoList 2 sampleStore
          = (true, {| _todoLists := [doneList; emptyList]; idGen := 3 |}))
    as Hdelete by (vm_compute; reflexivity).
  split_and!; [exact Hdistinct | exact Hdelete | |];
    apply (deleteTodoList_then_loadTodoList sampleStore 2 _ Hdistinct Hdelete).
Defined.

Lemma isUniqueList_spec_witness :
  "Work" ≠ "work" ∧ toLowerCase "Work" = toLowerCase "work" ∧
  isUniqueList "work" sampleStore = true ∧
  createTodoList counterNextId "Work" sampleStore
    = (true,
       {| _todoLists := [workList; doneList; emptyList; TodoList.mk "Work" 4 []];
          idGen := 4 |}) ∧
  isUniqueList "work"
    {| _todoLists := [workList; doneList; emptyList; TodoList.mk "Work" 4 []];
       idGen := 4 |} = true.
Proof.
  assert ("Work" ≠ "work") as Hne by discriminate.
  assert (toLowerCase "Work" = toLowerCase "work") as Hlower by reflexivity.
  assert (isUniqueList "work" sampleStore = true) as Huniq by reflexivity.
  assert (createTodoList counterNextId "Work" sampleStore
          = (true,
             {| _todoLists :=
                  [workList; doneList; emptyList; TodoList.mk "Work" 4 []];
                idGen := 4 |})) as Hcreate by reflexivity.
  split_and!; [done..|].
  exact (proj2 (isUniqueList_spec counterNextId sampleStore "work")
           "Work" _ Hne Hlower Huniq Hcreate).
Defined.

Lemma unknown_todo_rejected_witness :
  _findTodoList 2 sampleStore = Some (0%nat, workList) ∧
  Forall (λ todo, Todo.id todo ≠ 7) (TodoList.todos workList) ∧
  deleteTodo 2 7 sampleStore = (false, sampleStore) ∧
  toggleDoneTodo 2 7 sampleStore = (false, sampleStore).
Proof.
  assert (_findTodoList 2 sampleStore = Some (0%nat, workList)) as Hfind
    by (vm_compute; reflexivity).
  assert (Forall (λ todo, Todo.id todo ≠ 7) (TodoList.todos workList)) as Hnone
    by (repeat constructor; discriminate).
  split_and!; [exact Hfind | exact Hnone | |];
    apply (unknown_todo_rejected sampleStore 2 7 _ _ Hfind Hnone).
Defined.

Lemma markAllDone_empty_list_witness :
  _todoLists sampleStore !! 2%nat = Some emptyList ∧
  TodoList.id emptyList = 1 ∧
  TodoList.todos emptyList = [] ∧
  ∃ sp', markAllDone 1 sampleStore = (true, sp') ∧
         _todoLists sp' !! 2%nat = Some emptyList ∧
         isDoneTodoList emptyList = false.
Proof.
  split_and!; [reflexivity..|].
  exact (markAllDone_empty_list sampleStore 1 2 emptyList
           eq_refl eq_refl eq_refl).
Defined.

Lemma toggleDoneTodo_frame_witness :
  _findTodo 2 2 sampleStore = Some (0%nat, 1%nat, todo 2 "B" true) ∧
  ∃ sp', toggleDoneTodo 2 2 sampleStore = (true, sp') ∧
         _todoLists sp' =
           [TodoList.mk "Work" 2 [todo 1 "A" false; todo 2 "B" false];
            doneList; emptyList].
Proof.
  assert (_findTodo 2 2 sampleStore = Some (0%nat, 1%nat, todo 2 "B" true))
    as Hfind by (vm_compute; reflexivity).
  split; [exact Hfind|].
  destruct (toggleDoneTodo_frame sampleStore 2 2 _ _ _ Hfind)
    as (sp' & _ & _ & _ & Hrun & _).
  exists sp'. split; [exact Hrun|].
  vm_compute in Hrun. injection Hrun as <-. reflexivity.
Defined.

(** ** Looking lists and todos up *)

Section Loading.
Context {G : Type}.
Implicit Types (sp : SessionPersistence G) (todoList : TodoList.t).

(** An update in place that does not change what the search looks at leaves
    the search where it was. *)
Lemma list_find_alter_preserving {A} (P : A → Prop) `{∀ x, Decision (P x)}
    (f : A → A) (i : nat) (arr : list A) :
  (∀ x, P (f x) ↔ P x) →
  list_find P (alter f i arr) =
    (λ found, (found.1, if decide (found.1 = i) then f found.2 else found.2))
      <$> list_find P arr.
Proof.
  intros Hf. revert i. induction arr as [|x arr IH]; intros i; [done|].
  destruct i as [|i]; simpl.
  - destruct (decide (P x)) as [Hx|Hx].
    + by rewrite decide_True by by apply Hf.
    + rewrite decide_False by by rewrite Hf.
      by destruct (list_find P arr) as [[k y]|].
  - destruct (decide (P x)) as [Hx|Hx]; [done|].
    change (list_alter f i arr) with (alter f i arr). rewrite IH.
    destruct (list_find P arr) as [[k y]|]; simpl; [|done].
    repeat case_decide; (done || lia).
Qed.

Lemma _findTodoList_updateTodoList sp (i : nat) (f : TodoList.t → TodoList.t)
    (todoListId : Z) :
  (∀ todoList, TodoList.id (f todoList) = TodoList.id todoList) →
  _findTodoList todoListId (updateTodoList i f sp) =
    (λ found, (found.1, if decide (found.1 = i) then f found.2 else found.2))
      <$> _findTodoList todoListId sp.
Proof.
  intros Hid. unfold _findTodoList, find, updateTodoList. simpl.
  apply list_find_alter_preserving. intros x. by rewrite Hid.
Qed.

Lemma loadTodoList_Some sp (todoListId : Z) todoList :
  loadTodoList todoListId sp = Some todoList ↔
  ∃ i, _findTodoList todoListId sp = Some (i, todoList).
Proof.
  unfold loadTodoList, deepCopy.
  destruct (_findTodoList todoListId sp) as [[i found]|]; simpl.
  - split; [intros [= ->]; eauto | by intros [k [= _ ->]]].
  - split; [done | by intros [k ?]].
Qed.

Lemma loadTodoList_None sp (todoListId : Z) :
  loadTodoList todoListId sp = None ↔ _findTodoList todoListId sp = None.
Proof.
  unfold loadTodoList, deepCopy.
  by destruct (_findTodoList todoListId sp) as [[i found]|].
Qed.

(** Loading after an id-preserving update of the list at position [i]. *)
Lemma loadTodoList_updateTodoList sp (i : nat) (f : TodoList.t → TodoList.t)
    (todoListId : Z) todoList :
  (∀ l, TodoList.id (f l) = TodoList.id l) →
  _findTodoList todoListId sp = Some (i, todoList) →
  loadTodoList todoListId (updateTodoList i f sp) = Some (f todoList) ∧
  ∀ other, other ≠ todoListId →
    loadTodoList other (updateTodoList i f sp) = loadTodoList other sp.
Proof.
  intros Hid Hfind. split.
  - unfold loadTodoList, deepCopy.
    rewrite _findTodoList_updateTodoList, Hfind by done. simpl.
    by rewrite decide_True.
  - intros other Hother. unfold loadTodoList, deepCopy.
    rewrite _findTodoList_updateTodoList by done.
    destruct (_findTodoList other sp) as [[k found]|] eqn:Hk; simpl; [|done].
    destruct (decide (k = i)) as [->|Hne]; [|done].
    apply _findTodoList_Some in Hfind as (Hi & Hidi & _).
    apply _findTodoList_Some in Hk as (Hk & Hidk & _). congruence.
Qed.

End Loading.

Section LoadingContract.
Context {G : Type}.
Variable nextId : G → Z * G.
Implicit Types (sp : SessionPersistence G) (todoList : TodoList.t).

(** X1. [loadTodoList] returns the first stored list with the id asked for, and
    [undefined] exactly when no stored list has it. *)
Theorem loadTodoList_first_match sp (todoListId : Z) :
  (∀ todoList,
     loadTodoList todoListId sp = Some todoList ↔
     ∃ i, _todoLists sp !! i = Some todoList ∧
          TodoList.id todoList = todoListId ∧
          ∀ k other, _todoLists sp !! k = Some other → (k < i)%nat →
                     TodoList.id other ≠ todoListId) ∧
  (loadTodoList todoListId sp = None ↔
     Forall (λ todoList, TodoList.id todoList ≠ todoListId) (_todoLists sp)).
Proof.
  split.
  - intros todoList. rewrite loadTodoList_Some.
    by setoid_rewrite _findTodoList_Some.
  - rewrite loadTodoList_None, _findTodoList_None. by rewrite Forall_forall.
Qed.

Lemma loadTodo_Some sp (todoListId todoId : Z) (t : Todo.t) :
  loadTodo todoListId todoId sp = Some t ↔
  ∃ i j, _findTodo todoListId todoId sp = Some (i, j, t).
Proof.
  unfold loadTodo, deepCopy.
  destruct (_findTodo todoListId todoId sp) as [[[i j] found]|]; simpl.
  - split; [intros [= ->]; eauto | by intros (i' & j' & [= _ _ ->])].
  - split; [done | by intros (i' & j' & ?)].
Qed.

Lemma loadTodo_unfold sp (todoListId todoId : Z) :
  loadTodo todoListId todoId sp =
    match loadTodoList todoListId sp with
    | None => None
    | Some todoList =>
        snd <$> list_find (λ t, Todo.id t = todoId) (TodoList.todos todoList)
    end.
Proof.
  unfold loadTodo, loadTodoList, _findTodo, find, deepCopy.
  destruct (_findTodoList todoListId sp) as [[i todoList]|]; simpl; [|done].
  by destruct (list_find _ (TodoList.todos todoList)) as [[j t]|].
Qed.

(** X2. [loadTodo] searches the list that [loadTodoList] returns for the same
    list id: what it returns is a todo of that list with the id asked for,
    and it returns [undefined] exactly when the list is missing or has no
    todo with that id. *)
Theorem loadTodo_in_loaded_list sp (todoListId todoId : Z) :
  (∀ t, loadTodo todoListId todoId sp = Some t →
     ∃ todoList, loadTodoList todoListId sp = Some todoList ∧
                 t ∈ TodoList.todos todoList ∧ Todo.id t = todoId) ∧
  (loadTodo todoListId todoId sp = None ↔
     loadTodoList todoListId sp = None ∨
     ∃ todoList, loadTodoList todoListId sp = Some todoList ∧
       Forall (λ t, Todo.id t ≠ todoId) (TodoList.todos todoList)).
Proof.
  rewrite loadTodo_unfold.
  destruct (loadTodoList todoListId sp) as [todoList|]; [|naive_solver].
  destruct (list_find _ (TodoList.todos todoList)) as [[j found]|] eqn:Hj;
    simpl.
  - apply list_find_Some in Hj as (Hj & Hid & _). split.
    + intros t [= <-]. exists todoList.
      split_and!; [done | by eapply list_elem_of_lookup_2 | done].
    + split; [done|]. intros [?|(l & [= <-] & Hall)]; [done|].
      by apply (Forall_lookup_1 _ _ _ _ Hall) in Hj.
  - apply list_find_None in Hj. split; [done|].
    split; [|done]. intros _. right. eauto.
Qed.

(** X3. Each mutating method that addresses a todo reports success exactly when
    [loadTodo] finds that todo, and each one that addresses a list exactly
    when [loadTodoList] finds that list. *)
Theorem success_iff_found sp (todoListId todoId : Z) (title : string) :
  (fst (toggleDoneTodo todoListId todoId sp) = true ↔
     is_Some (loadTodo todoListId todoId sp)) ∧
  (fst (deleteTodo todoListId todoId sp) = true ↔
     is_Some (loadTodo todoListId todoId sp)) ∧
  (fst (deleteTodoList todoListId sp) = true ↔
     is_Some (loadTodoList todoListId sp)) ∧
  (fst (markAllDone todoListId sp) = true ↔
     is_Some (loadTodoList todoListId sp)) ∧
  (fst (addNewTodo nextId todoListId title sp) = true ↔
     is_Some (loadTodoList todoListId sp)) ∧
  (fst (renameTodoList todoListId title sp) = true ↔
     is_Some (loadTodoList todoListId sp)).
Proof.
  unfold toggleDoneTodo, deleteTodo, deleteTodoList, markAllDone, addNewTodo,
    renameTodoList, loadTodo, loadTodoList, _findTodo, _findTodoList, findIndex,
    find, deepCopy.
  destruct (list_find _ (_todoLists sp)) as [[i todoList]|]; simpl.
  - destruct (list_find _ (TodoList.todos todoList)) as [[j t]|]; simpl;
      destruct (nextId (idGen sp)); simpl;
      rewrite ?is_Some_alt; split_and!; split; (done || eauto).
  - rewrite ?is_Some_alt. split_and!; split; done.
Qed.

End LoadingContract.

(** ** What a successful call changes *)

Section Effects.
Context {G : Type}.
Variable nextId : G → Z * G.
Implicit Types (sp : SessionPersistence G) (todoList : TodoList.t).

(** The element a search finds splits the array into the part before it,
    where nothing satisfies the predicate, and the part after it. *)
Lemma list_find_split {A} (P : A → Prop) `{∀ x, Decision (P x)}
    (arr : list A) (j : nat) (x : A) :
  list_find P arr = Some (j, x) →
  ∃ pre post, arr = pre ++ x :: post ∧ length pre = j ∧
              Forall (λ y, ¬ P y) pre ∧ delete j arr = pre ++ post.
Proof.
  intros Hfind. apply list_find_Some in Hfind as (Hj & _ & Hleast).
  exists (take j arr), (drop (S j) arr). split_and!.
  - by rewrite take_drop_middle.
  - apply length_take_le. apply lookup_lt_Some in Hj. lia.
  - apply Forall_lookup. intros k y Hk.
    apply lookup_take_Some in Hk as [Hk Hlt]. eauto.
  - apply delete_take_drop.
Qed.

Lemma loadTodoList_lists sp (todoListId : Z) :
  loadTodoList todoListId sp =
    snd <$> list_find (λ l, TodoList.id l = todoListId) (_todoLists sp).
Proof. reflexivity. Qed.

(** X4. [createTodoList] appends one list and takes one identifier from the
    generator.  Every list that could be loaded before is loaded unchanged
    afterwards; when the new identifier is not in use, loading it gives the
    new list, which has the title asked for and no todos. *)
Theorem createTodoList_appends sp (title : string) (newId : Z) (g : G) :
  nextId (idGen sp) = (newId, g) →
  ∃ sp', createTodoList nextId title sp = (true, sp') ∧
    idGen sp' = g ∧
    length (_todoLists sp') = S (length (_todoLists sp)) ∧
    (∀ id todoList, loadTodoList id sp = Some todoList →
                    loadTodoList id sp' = Some todoList) ∧
    (Forall (λ todoList, TodoList.id todoList ≠ newId) (_todoLists sp) →
     loadTodoList newId sp' = Some (TodoList.mk title newId [])).
Proof.
  intros Hgen. unfold createTodoList. rewrite Hgen. eexists.
  split; [reflexivity|]. split; [done|]. split_and!.
  - simpl. unfold push. rewrite length_app. simpl. lia.
  - intros id todoList. rewrite !loadTodoList_lists. simpl. unfold push.
    destruct (list_find _ (_todoLists sp)) as [[i found]|] eqn:Hfind; [|done].
    by rewrite (list_find_app_l _ _ _ _ _ Hfind).
  - intros Hfresh. rewrite loadTodoList_lists. simpl. unfold push.
    rewrite list_find_app_r by by apply list_find_None.
    simpl. by rewrite decide_True.
Qed.

(** X5. Creating a list and deleting it again by its identifier, when that
    identifier was not in use, gives back the collection as it was; only the
    generator has moved on. *)
Theorem createTodoList_then_deleteTodoList sp (title : string) (newId : Z)
    (g : G) :
  nextId (idGen sp) = (newId, g) →
  Forall (λ todoList, TodoList.id todoList ≠ newId) (_todoLists sp) →
  ∃ sp', createTodoList nextId title sp = (true, sp') ∧
         deleteTodoList newId sp'
           = (true, {| _todoLists := _todoLists sp; idGen := g |}).
Proof.
  intros Hgen Hfresh. unfold createTodoList. rewrite Hgen. eexists.
  split; [reflexivity|]. unfold deleteTodoList, findIndex. simpl. unfold push.
  rewrite list_find_app_r by by apply list_find_None.
  simpl. rewrite decide_True by done. simpl. unfold splice1.
  by rewrite (delete_middle (_todoLists sp) []), app_nil_r.
Qed.

Lemma alter_alter {A} (f g : A → A) (i : nat) (arr : list A) :
  alter g i (alter f i arr) = alter (g ∘ f) i arr.
Proof.
  revert i. induction arr as [|x arr IH]; intros [|i]; simpl; f_equal; auto.
  apply IH.
Qed.

Lemma alter_fixed {A} (f : A → A) (i : nat) (arr : list A) (x : A) :
  arr !! i = Some x → f x = x → alter f i arr = arr.
Proof.
  intros Hi Hx. apply list_eq. intros k. destruct (decide (i = k)) as [<-|Hne].
  - by rewrite list_lookup_alter_eq, Hi; simpl; rewrite Hx.
  - by rewrite list_lookup_alter_ne.
Qed.

Lemma loadTodoList_alter sp (g : G) (i : nat) (f : TodoList.t → TodoList.t)
    (todoListId : Z) todoList :
  (∀ l, TodoList.id (f l) = TodoList.id l) →
  _findTodoList todoListId sp = Some (i, todoList) →
  _findTodoList todoListId
    {| _todoLists := alter f i (_todoLists sp); idGen := g |}
    = Some (i, f todoList) ∧
  loadTodoList todoListId
    {| _todoLists := alter f i (_todoLists sp); idGen := g |}
    = Some (f todoList) ∧
  ∀ other, other ≠ todoListId →
    loadTodoList other {| _todoLists := alter f i (_todoLists sp); idGen := g |}
    = loadTodoList other sp.
Proof.
  intros Hid Hfind.
  destruct (loadTodoList_updateTodoList sp i f todoListId todoList Hid Hfind)
    as [Hload Hother].
  split_and!; [|exact Hload|exact Hother].
  change (_findTodoList todoListId (updateTodoList i f sp)
          = Some (i, f todoList)).
  rewrite _findTodoList_updateTodoList, Hfind by done. simpl.
  by rewrite decide_True.
Qed.

(** X6. [addNewTodo] on a stored list appends one todo, not done, with the title
    asked for and an identifier taken from the generator.  The list keeps its
    title, its id and its earlier todos in order, and is not a done list
    afterwards; lists with another id are loaded as before; when the new
    identifier is not in use in the list, [loadTodo] finds the new todo. *)
Theorem addNewTodo_appends sp (todoListId : Z) (title : string) (newId : Z)
    (g : G) todoList :
  loadTodoList todoListId sp = Some todoList →
  nextId (idGen sp) = (newId, g) →
  let newTodo := Todo.mk newId title false in
  let grown :=
    TodoList.mk (TodoList.title todoList) (TodoList.id todoList)
      (TodoList.todos todoList ++ [newTodo]) in
  ∃ sp', addNewTodo nextId todoListId title sp = (true, sp') ∧
    idGen sp' = g ∧
    loadTodoList todoListId sp' = Some grown ∧
    isDoneTodoList grown = false ∧
    (∀ other, other ≠ todoListId →
       loadTodoList other sp' = loadTodoList other sp) ∧
    (Forall (λ t, Todo.id t ≠ newId) (TodoList.todos todoList) →
     loadTodo todoListId newId sp' = Some newTodo).
Proof.
  intros Hload Hgen newTodo grown. subst grown newTodo.
  apply loadTodoList_Some in Hload as [i Hfind].
  unfold addNewTodo. rewrite Hfind, Hgen. eexists.
  split; [reflexivity|]. split; [done|].
  destruct (loadTodoList_alter sp g i
              (TodoList.alterTodos (push (Todo.mk newId title false)))
              todoListId todoList (λ _, eq_refl) Hfind)
    as (_ & Hgrown & Hother).
  split_and!.
  - exact Hgrown.
  - unfold isDoneTodoList. simpl.
    rewrite forallb_app. simpl. by rewrite !andb_false_r.
  - exact Hother.
  - intros Hfresh. rewrite loadTodo_unfold, Hgrown. simpl. unfold push.
    rewrite list_find_app_r by by apply list_find_None.
    simpl. by rewrite decide_True.
Qed.

(** X7. Adding a todo and deleting it again by its identifier, when that
    identifier was not in use in the list, gives back the collection as it
    was; only the generator has moved on. *)
Theorem addNewTodo_then_deleteTodo sp (todoListId : Z) (title : string)
    (newId : Z) (g : G) todoList :
  loadTodoList todoListId sp = Some todoList →
  nextId (idGen sp) = (newId, g) →
  Forall (λ t, Todo.id t ≠ newId) (TodoList.todos todoList) →
  ∃ sp', addNewTodo nextId todoListId title sp = (true, sp') ∧
         deleteTodo todoListId newId sp'
           = (true, {| _todoLists := _todoLists sp; idGen := g |}).
Proof.
  intros Hload Hgen Hfresh. apply loadTodoList_Some in Hload as [i Hfind].
  unfold addNewTodo. rewrite Hfind, Hgen. eexists. split; [reflexivity|].
  set (newTodo := Todo.mk newId title false).
  destruct (loadTodoList_alter sp g i (TodoList.alterTodos (push newTodo))
              todoListId todoList (λ _, eq_refl) Hfind) as (Hfind' & _ & _).
  unfold deleteTodo. rewrite Hfind'. unfold findIndex. simpl. unfold push.
  rewrite list_find_app_r by by apply list_find_None.
  simpl. rewrite decide_True by done. simpl.
  unfold updateTodoList. simpl. f_equal. f_equal.
  rewrite alter_alter. apply _findTodoList_Some in Hfind as (Hi & _ & _).
  apply (alter_fixed _ _ _ _ Hi).
  destruct todoList as [t id todos]. unfold TodoList.alterTodos. simpl.
  f_equal. unfold splice1, push.
  by rewrite (delete_middle todos []), app_nil_r.
Qed.

(** X8. [deleteTodo] removes the first todo with the id asked for from the first
    list with the list id asked for, and nothing else: the todos before and
    after it keep their order, the list keeps its title and id, lists with
    another id are loaded as before.  When the ids of the todos of the list
    are distinct, the todo cannot be loaded afterwards. *)
Theorem deleteTodo_removes_first sp (todoListId todoId : Z) todoList
    (t : Todo.t) :
  loadTodoList todoListId sp = Some todoList →
  loadTodo todoListId todoId sp = Some t →
  ∃ pre post sp',
    TodoList.todos todoList = pre ++ t :: post ∧
    Forall (λ x, Todo.id x ≠ todoId) pre ∧
    deleteTodo todoListId todoId sp = (true, sp') ∧
    idGen sp' = idGen sp ∧
    loadTodoList todoListId sp'
      = Some (TodoList.mk (TodoList.title todoList) (TodoList.id todoList)
                (pre ++ post)) ∧
    (∀ other, other ≠ todoListId →
       loadTodoList other sp' = loadTodoList other sp) ∧
    (NoDup (Todo.id <$> TodoList.todos todoList) →
     loadTodo todoListId todoId sp' = None).
Proof.
  intros Hload Htodo. rewrite loadTodo_unfold, Hload in Htodo.
  apply loadTodoList_Some in Hload as [i Hfind].
  destruct (list_find _ (TodoList.todos todoList)) as [[j t']|] eqn:Hj;
    [|done].
  injection Htodo as ->.
  destruct (list_find_split _ _ _ _ Hj)
    as (pre & post & Hsplit & _ & Hpre & Hdel).
  destruct (proj1 (list_find_Some _ _ _ _) Hj) as (_ & Hid & _).
  exists pre, post. unfold deleteTodo, findIndex. rewrite Hfind, Hj; simpl.
  eexists. split; [done|]. split; [done|]. split; [reflexivity|].
  split; [done|].
  destruct (loadTodoList_updateTodoList sp i
              (TodoList.alterTodos (splice1 j)) todoListId todoList
              (λ _, eq_refl) Hfind) as [Hafter Hother].
  replace (TodoList.alterTodos (splice1 j) todoList)
    with (TodoList.mk (TodoList.title todoList) (TodoList.id todoList)
            (pre ++ post)) in Hafter
    by (unfold TodoList.alterTodos, splice1; by rewrite Hdel).
  split_and!; [exact Hafter | exact Hother |].
  intros Hdistinct. rewrite loadTodo_unfold, Hafter. simpl.
  assert (list_find (λ x, Todo.id x = todoId) (pre ++ post) = None) as ->;
    [|done].
  apply list_find_None, Forall_app. split; [done|].
  rewrite Hsplit, fmap_app, fmap_cons in Hdistinct.
  apply NoDup_app in Hdistinct as (_ & _ & Hpost).
  apply NoDup_cons in Hpost as [Hnotin _].
  apply Forall_forall. intros x Hx Heq. apply Hnotin.
  rewrite Hid, <- Heq. by apply list_elem_of_fmap_2.
Qed.

Lemma list_find_skip {A} (P : A → Prop) `{∀ x, Decision (P x)}
    (pre post : list A) (x : A) :
  ¬ P x →
  snd <$> list_find P (pre ++ x :: post) = snd <$> list_find P (pre ++ post).
Proof.
  intros Hx. induction pre as [|y pre IH]; simpl.
  - rewrite decide_False by done. by destruct (list_find P post) as [[k z]|].
  - destruct (decide (P y)); [done|].
    destruct (list_find P (pre ++ x :: post)) as [[k z]|],
      (list_find P (pre ++ post)) as [[k' z']|]; simpl in *; congruence.
Qed.

(** X9. [deleteTodoList] removes the first list with the id asked for, with all
    its todos, and nothing else: the lists before and after it stay as they
    are, in their order, so the lists with another id and their todos are
    loaded as before. *)
Theorem deleteTodoList_removes_first sp (todoListId : Z) todoList :
  loadTodoList todoListId sp = Some todoList →
  ∃ pre post sp',
    _todoLists sp = pre ++ todoList :: post ∧
    Forall (λ l, TodoList.id l ≠ todoListId) pre ∧
    deleteTodoList todoListId sp = (true, sp') ∧
    sp' = {| _todoLists := pre ++ post; idGen := idGen sp |} ∧
    (∀ other, other ≠ todoListId →
       loadTodoList other sp' = loadTodoList other sp ∧
       ∀ todoId, loadTodo other todoId sp' = loadTodo other todoId sp).
Proof.
  intros Hload. apply loadTodoList_Some in Hload as [i Hfind].
  unfold _findTodoList, find in Hfind.
  destruct (list_find_split _ _ _ _ Hfind)
    as (pre & post & Hsplit & _ & Hpre & Hdel).
  destruct (proj1 (list_find_Some _ _ _ _) Hfind) as (_ & Hid & _).
  exists pre, post. eexists. split_and!; [done | done | | reflexivity |].
  - unfold deleteTodoList, findIndex, splice1. rewrite Hfind. simpl.
    by rewrite Hdel.
  - intros other Hother.
    assert (loadTodoList other
              {| _todoLists := pre ++ post; idGen := idGen sp |}
            = loadTodoList other sp) as Hsame.
    { rewrite !loadTodoList_lists. simpl. rewrite Hsplit.
      symmetry. apply list_find_skip. congruence. }
    split; [done|]. intros todoId. by rewrite !loadTodo_unfold, Hsame.
Qed.

End Effects.

(** ** Marking done, renaming, and what the methods keep *)

Section Keeping.
Context {G : Type}.
Variable nextId : G → Z * G.
Implicit Types (sp : SessionPersistence G) (todoList : TodoList.t).

Lemma hasUndoneTodos_true todoList :
  hasUndoneTodos todoList = true ↔
  ∃ t, t ∈ TodoList.todos todoList ∧ Todo.done t = false.
Proof.
  unfold hasUndoneTodos. rewrite existsb_exists.
  setoid_rewrite <- list_elem_of_In. by setoid_rewrite negb_true_iff.
Qed.

(** X10. [hasUndoneTodos] answers [true] exactly when some todo of the list is not
    done.  A list is done exactly when it has a todo and [hasUndoneTodos]
    answers [false]; so of "is empty", "has an undone todo" and "is done"
    exactly one holds. *)
Theorem hasUndoneTodos_spec todoList :
  (hasUndoneTodos todoList = true ↔
     ∃ t, t ∈ TodoList.todos todoList ∧ Todo.done t = false) ∧
  (isDoneTodoList todoList = true ↔
     TodoList.todos todoList ≠ [] ∧ hasUndoneTodos todoList = false).
Proof.
  split; [apply hasUndoneTodos_true|].
  pose proof (inUndoneGroup_iff todoList) as Hundone.
  unfold inUndoneGroup in Hundone.
  destruct (isDoneTodoList todoList) eqn:Hdone,
    (hasUndoneTodos todoList) eqn:Hhas.
  - destruct Hundone as [Hundone _]. by specialize (Hundone (or_introl eq_refl)).
  - split; [|done]. intros _. split; [|done]. intros Hnil.
    destruct Hundone as [Hundone _]. by specialize (Hundone (or_intror Hnil)).
  - split; [done | by intros [_ ?]].
  - split; [done|]. intros [Hne _]. destruct Hundone as [_ Hundone].
    by destruct (Hundone eq_refl).
Qed.

Lemma setDone_true_fields (todos : list Todo.t) :
  Todo.id <$> map (Todo.setDone true) todos = Todo.id <$> todos ∧
  Todo.title <$> map (Todo.setDone true) todos = Todo.title <$> todos ∧
  Forall (λ t, Todo.done t = true) (map (Todo.setDone true) todos).
Proof.
  induction todos as [|t todos (IHid & IHtitle & IHdone)]; [done|].
  simpl. split_and!; [by f_equal | by f_equal | by constructor].
Qed.

(** X11. [markAllDone] on a stored list sets the [done] flag of each of its todos
    and changes nothing else: the list keeps its title and id, its todos
    keep their ids, titles and order, and lists with another id are loaded as
    before.  Afterwards the list has no undone todo, and it is a done list
    exactly when it has a todo. *)
Theorem markAllDone_marks_all sp (todoListId : Z) todoList :
  loadTodoList todoListId sp = Some todoList →
  ∃ sp' marked,
    markAllDone todoListId sp = (true, sp') ∧
    idGen sp' = idGen sp ∧
    loadTodoList todoListId sp' = Some marked ∧
    TodoList.title marked = TodoList.title todoList ∧
    TodoList.id marked = TodoList.id todoList ∧
    Todo.id <$> TodoList.todos marked = Todo.id <$> TodoList.todos todoList ∧
    Todo.title <$> TodoList.todos marked
      = Todo.title <$> TodoList.todos todoList ∧
    Forall (λ t, Todo.done t = true) (TodoList.todos marked) ∧
    hasUndoneTodos marked = false ∧
    (isDoneTodoList marked = true ↔ TodoList.todos todoList ≠ []) ∧
    (∀ other, other ≠ todoListId →
       loadTodoList other sp' = loadTodoList other sp).
Proof.
  intros Hload. apply loadTodoList_Some in Hload as [i Hfind].
  unfold markAllDone. rewrite Hfind.
  destruct (loadTodoList_updateTodoList sp i
              (TodoList.alterTodos (map (Todo.setDone true))) todoListId
              todoList (λ _, eq_refl) Hfind) as [Hafter Hother].
  destruct (setDone_true_fields (TodoList.todos todoList))
    as (Hids & Htitles & Hdone).
  eexists _, _. split; [reflexivity|]. split; [done|].
  split; [exact Hafter|]. simpl.
  assert (hasUndoneTodos
            (TodoList.alterTodos (map (Todo.setDone true)) todoList) = false)
    as Hnone.
  { apply not_true_iff_false. rewrite hasUndoneTodos_true. simpl.
    intros (t & Hin & Hundone).
    rewrite Forall_forall in Hdone. specialize (Hdone _ Hin). congruence. }
  split_and!; try done.
  rewrite isDoneTodoList_true. unfold inDoneGroup. simpl. split.
  - intros [Hne _] Hnil. by rewrite Hnil in Hne.
  - intros Hne. split; [|done]. by destruct (TodoList.todos todoList).
Qed.

Lemma alter_idemp {A} (f : A → A) (i : nat) (arr : list A) :
  (∀ x, f (f x) = f x) → alter f i (alter f i arr) = alter f i arr.
Proof.
  intros Hf. rewrite alter_alter. apply list_alter_ext; [|done].
  intros x _. apply Hf.
Qed.

(** X12. A second [markAllDone] on the same list changes nothing and returns what
    the first returned. *)
Theorem markAllDone_idempotent sp (todoListId : Z) :
  markAllDone todoListId (snd (markAllDone todoListId sp))
  = markAllDone todoListId sp.
Proof.
  unfold markAllDone at 2 3.
  destruct (_findTodoList todoListId sp) as [[i todoList]|] eqn:Hfind; simpl.
  - unfold markAllDone.
    rewrite _findTodoList_updateTodoList, Hfind by done. simpl.
    f_equal. unfold updateTodoList. simpl. f_equal.
    apply alter_idemp. intros [title id todos]. unfold TodoList.alterTodos.
    simpl. f_equal. rewrite map_map. apply map_ext. by intros [? ? ?].
  - unfold markAllDone. by rewrite Hfind.
Qed.

(** X13. [renameTodoList] on a stored list replaces its title and changes nothing
    else: the list keeps its id and its todos, lists with another id are
    loaded as before.  The method does not look at the other titles;
    afterwards the new title is never reported unique. *)
Theorem renameTodoList_renames sp (todoListId : Z) (newTitle : string)
    todoList :
  loadTodoList todoListId sp = Some todoList →
  ∃ sp', renameTodoList todoListId newTitle sp = (true, sp') ∧
    idGen sp' = idGen sp ∧
    loadTodoList todoListId sp'
      = Some (TodoList.mk newTitle (TodoList.id todoList)
                (TodoList.todos todoList)) ∧
    isUniqueList newTitle sp' = false ∧
    (∀ other, other ≠ todoListId →
       loadTodoList other sp' = loadTodoList other sp).
Proof.
  intros Hload. apply loadTodoList_Some in Hload as [i Hfind].
  unfold renameTodoList. rewrite Hfind.
  destruct (loadTodoList_updateTodoList sp i (TodoList.setTitle newTitle)
              todoListId todoList (λ _, eq_refl) Hfind) as [Hafter Hother].
  eexists. split; [reflexivity|]. split; [done|]. split_and!; try done.
  apply not_true_iff_false. rewrite isUniqueList_true. intros Hall.
  apply (Hall (TodoList.setTitle newTitle todoList)); [|done].
  simpl. apply list_elem_of_lookup. exists i.
  apply _findTodoList_Some in Hfind as (Hi & _ & _).
  by rewrite list_lookup_alter_eq, Hi.
Qed.

(** X14. Renaming a stored list and renaming it back to its old title gives back
    the store as it was. *)
Theorem renameTodoList_back sp (todoListId : Z) (newTitle : string) todoList :
  loadTodoList todoListId sp = Some todoList →
  ∃ sp', renameTodoList todoListId newTitle sp = (true, sp') ∧
         renameTodoList todoListId (TodoList.title todoList) sp' = (true, sp).
Proof.
  intros Hload. apply loadTodoList_Some in Hload as [i Hfind].
  unfold renameTodoList at 1. rewrite Hfind. eexists. split; [reflexivity|].
  unfold renameTodoList.
  rewrite _findTodoList_updateTodoList, Hfind by done. simpl. f_equal.
  destruct sp as [lists g]. unfold updateTodoList. simpl. f_equal.
  rewrite alter_alter. apply _findTodoList_Some in Hfind as (Hi & _ & _).
  apply (alter_fixed _ _ _ _ Hi). by destruct todoList.
Qed.

End Keeping.

(** ** Invariants of the collection *)

Section Invariants.
Context {G : Type}.
Variable nextId : G → Z * G.
Implicit Types (sp : SessionPersistence G) (todoList : TodoList.t).

Lemma fmap_alter_kept {A B} (proj : A → B) (f : A → A) (i : nat)
    (arr : list A) :
  (∀ x, proj (f x) = proj x) → proj <$> alter f i arr = proj <$> arr.
Proof.
  intros Hf. rewrite (list_fmap_alter proj f (λ y, y)).
  - by apply list_alter_id.
  - apply Forall_forall. intros x _. apply Hf.
Qed.

Lemma existsb_fmap {A B} (p : B → bool) (proj : A → B) (arr : list A) :
  existsb p (proj <$> arr) = existsb (λ x, p (proj x)) arr.
Proof. induction arr as [|x arr IH]; csimpl; [done | by rewrite IH]. Qed.

(** The methods that work inside one list change at most one stored list, in
    place, and leave its id and its title alone. *)
Lemma todo_level_shape sp (todoListId todoId : Z) (title : string) :
  ∀ sp', sp' = snd (toggleDoneTodo todoListId todoId sp) ∨
         sp' = snd (deleteTodo todoListId todoId sp) ∨
         sp' = snd (markAllDone todoListId sp) ∨
         sp' = snd (addNewTodo nextId todoListId title sp) →
  ∃ i f, (∀ l, TodoList.id (f l) = TodoList.id l) ∧
         (∀ l, TodoList.title (f l) = TodoList.title l) ∧
         _todoLists sp' = alter f i (_todoLists sp).
Proof.
  assert (∃ (i : nat) (f : TodoList.t → TodoList.t),
            (∀ l, TodoList.id (f l) = TodoList.id l) ∧
            (∀ l, TodoList.title (f l) = TodoList.title l) ∧
            _todoLists sp = alter f i (_todoLists sp)) as Hsame.
  { exists 0%nat, (λ l, l). split_and!; [done..|]. by rewrite list_alter_id. }
  intros sp' Hsp'.
  unfold toggleDoneTodo, deleteTodo, markAllDone, addNewTodo, _findTodo, find,
    findIndex in Hsp'.
  destruct (_findTodoList todoListId sp) as [[i todoList]|];
    [|by destruct Hsp' as [->|[->|[->| ->]]]].
  destruct (nextId (idGen sp)) as [newId g].
  destruct (list_find _ (TodoList.todos todoList)) as [[j t]|];
    simpl in Hsp'; destruct Hsp' as [->|[->|[->| ->]]]; try exact Hsame;
    simpl; eexists i, _; (split_and!; [| |reflexivity]); done.
Qed.

(** X15. [toggleDoneTodo], [deleteTodo], [markAllDone] and [addNewTodo] never
    change how many lists are stored, their order, their ids or their
    titles; so they never change the answer of [isUniqueList]. *)
Theorem todo_level_methods_keep_lists sp (todoListId todoId : Z)
    (title : string) :
  ∀ sp', sp' = snd (toggleDoneTodo todoListId todoId sp) ∨
         sp' = snd (deleteTodo todoListId todoId sp) ∨
         sp' = snd (markAllDone todoListId sp) ∨
         sp' = snd (addNewTodo nextId todoListId title sp) →
  TodoList.id <$> _todoLists sp' = TodoList.id <$> _todoLists sp ∧
  TodoList.title <$> _todoLists sp' = TodoList.title <$> _todoLists sp ∧
  ∀ t, isUniqueList t sp' = isUniqueList t sp.
Proof.
  intros sp' Hsp'.
  destruct (todo_level_shape sp todoListId todoId title sp' Hsp')
    as (i & f & Hid & Htitle & Hshape).
  assert (TodoList.title <$> _todoLists sp'
          = TodoList.title <$> _todoLists sp) as Htitles
    by (rewrite Hshape; by apply fmap_alter_kept).
  split_and!; [rewrite Hshape; by apply fmap_alter_kept | done |].
  intros t. unfold isUniqueList.
  assert (∀ arr : list TodoList.t,
            existsb (λ l, bool_decide (TodoList.title l = t)) arr
            = existsb (λ s, bool_decide (s = t)) (TodoList.title <$> arr))
    as Hex by (intros arr; by rewrite existsb_fmap).
  by rewrite !Hex, Htitles.
Qed.

(** X16. Distinct list ids stay distinct under every mutating method; for
    [createTodoList] this needs the generator to hand out an id that is not
    in use. *)
Theorem distinct_list_ids_kept sp (todoListId todoId : Z) (title : string) :
  NoDup (TodoList.id <$> _todoLists sp) →
  NoDup (TodoList.id <$>
           _todoLists (snd (toggleDoneTodo todoListId todoId sp))) ∧
  NoDup (TodoList.id <$> _todoLists (snd (deleteTodo todoListId todoId sp))) ∧
  NoDup (TodoList.id <$> _todoLists (snd (deleteTodoList todoListId sp))) ∧
  NoDup (TodoList.id <$> _todoLists (snd (markAllDone todoListId sp))) ∧
  NoDup (TodoList.id <$>
           _todoLists (snd (addNewTodo nextId todoListId title sp))) ∧
  NoDup (TodoList.id <$>
           _todoLists (snd (renameTodoList todoListId title sp))) ∧
  (fst (nextId (idGen sp)) ∉ TodoList.id <$> _todoLists sp →
   NoDup (TodoList.id <$> _todoLists (snd (createTodoList nextId title sp)))).
Proof.
  intros Hdistinct.
  assert (∀ sp', sp' = snd (toggleDoneTodo todoListId todoId sp) ∨
                 sp' = snd (deleteTodo todoListId todoId sp) ∨
                 sp' = snd (markAllDone todoListId sp) ∨
                 sp' = snd (addNewTodo nextId todoListId title sp) →
                 NoDup (TodoList.id <$> _todoLists sp')) as Hin_place.
  { intros sp' Hsp'.
    destruct (todo_level_shape sp todoListId todoId title sp' Hsp')
      as (i & f & Hid & _ & ->).
    by rewrite fmap_alter_kept. }
  split_and!; try (apply Hin_place; auto; fail).
  - unfold deleteTodoList.
    destruct (findIndex _ (_todoLists sp)) as [i|]; simpl; [|done].
    unfold splice1. rewrite list_fmap_delete.
    eapply sublist_NoDup; [exact Hdistinct | apply sublist_delete].
  - unfold renameTodoList.
    destruct (_findTodoList todoListId sp) as [[i todoList]|]; simpl; [|done].
    by rewrite fmap_alter_kept.
  - unfold createTodoList. destruct (nextId (idGen sp)) as [newId g]. simpl.
    intros Hfresh. unfold push. rewrite fmap_app. apply NoDup_app.
    split_and!; [done | | apply NoDup_singleton].
    intros x Hx Hnew. apply list_elem_of_singleton in Hnew. by subst x.
Qed.

(** X17. Toggling a todo of a done list makes the list undone: the todo is not
    done afterwards, so the list has an undone todo. *)
Theorem toggleDoneTodo_undoes_done_list sp (todoListId todoId : Z) todoList
    (t : Todo.t) :
  loadTodoList todoListId sp = Some todoList →
  isDoneTodoList todoList = true →
  loadTodo todoListId todoId sp = Some t →
  ∃ sp' toggled,
    toggleDoneTodo todoListId todoId sp = (true, sp') ∧
    loadTodo todoListId todoId sp'
      = Some (Todo.mk (Todo.id t) (Todo.title t) false) ∧
    loadTodoList todoListId sp' = Some toggled ∧
    hasUndoneTodos toggled = true ∧
    isDoneTodoList toggled = false.
Proof.
  intros Hload Hdone Htodo.
  apply loadTodo_Some in Htodo as (i & j & Hfind).
  pose proof (_findTodo_toggled _ _ _ _ _ _ Hfind) as Hfind'.
  destruct (proj1 (_findTodo_Some _ _ _ _ _ _) Hfind)
    as (found & Hlist & Hj).
  assert (found = todoList) as ->.
  { apply loadTodoList_Some in Hload as [i' Hlist']. congruence. }
  assert (Todo.done t = true) as Ht.
  { apply isDoneTodoList_true in Hdone as [_ Hall].
    apply list_find_Some in Hj as (Hj & _ & _).
    by apply (Forall_lookup_1 _ _ _ _ Hall Hj). }
  destruct (loadTodoList_updateTodoList sp i
              (TodoList.alterTodos (alter Todo.flipDone j)) todoListId
              todoList (λ _, eq_refl) Hlist) as [Hafter _].
  assert (hasUndoneTodos
            (TodoList.alterTodos (alter Todo.flipDone j) todoList) = true)
    as Hundone.
  { apply hasUndoneTodos_true. exists (Todo.flipDone t). split.
    - simpl. apply list_elem_of_lookup. exists j.
      apply list_find_Some in Hj as (Hj & _ & _).
      by rewrite list_lookup_alter_eq, Hj.
    - unfold Todo.flipDone. simpl. by rewrite Ht. }
  eexists _, _. split_and!.
  - by apply toggleDoneTodo_found with t.
  - unfold loadTodo, deepCopy. rewrite Hfind'. simpl.
    unfold Todo.flipDone, Todo.setDone. by rewrite Ht.
  - exact Hafter.
  - exact Hundone.
  - apply inUndoneGroup_iff. by left.
Qed.

End Invariants.

(** ** Sorting the todos of a list, building the object *)

Section SortedTodos.
Implicit Types (todoList : TodoList.t).

(** X18. [sortedTodos] returns the todos of the list, rearranged so that every
    todo that is not done stands before every todo that is done, and so that
    among the todos with the same [done] flag the titles never decrease when
    letter case is ignored. *)
Theorem sortedTodos_order todoList :
  sortedTodos todoList ≡ₚ TodoList.todos todoList ∧
  (∀ i j a b,
     sortedTodos todoList !! i = Some a → sortedTodos todoList !! j = Some b →
     Todo.done a = false → Todo.done b = true → (i < j)%nat) ∧
  (∀ i j a b,
     sortedTodos todoList !! i = Some a → sortedTodos todoList !! j = Some b →
     (i < j)%nat → Todo.done a = Todo.done b →
     title_le (Todo.title a) (Todo.title b)).
Proof.
  unfold sortedTodos, sortTodos, deepCopy.
  set (front := sortByTitle Todo.title
                  (List.filter (λ t, negb (Todo.done t))
                     (TodoList.todos todoList))).
  set (back := sortByTitle Todo.title
                 (List.filter (λ t, Todo.done t) (TodoList.todos todoList))).
  assert (Forall (λ t, Todo.done t = false) front) as Hfront.
  { unfold front. rewrite sortByTitle_Permutation. apply Forall_forall.
    intros t Hin. apply list_elem_of_In, filter_In in Hin as [_ Hp].
    by apply negb_true_iff. }
  assert (Forall (λ t, Todo.done t = true) back) as Hback.
  { unfold back. rewrite sortByTitle_Permutation. apply Forall_forall.
    intros t Hin. by apply list_elem_of_In, filter_In in Hin as [_ Hp]. }
  assert (∀ i a, (front ++ back) !! i = Some a → Todo.done a = false →
                 front !! i = Some a) as Hin_front.
  { intros i a Hi Ha. apply lookup_app_Some in Hi as [?|[_ Hi]]; [done|].
    pose proof (Forall_lookup_1 _ _ _ _ Hback Hi). congruence. }
  assert (∀ i a, (front ++ back) !! i = Some a → Todo.done a = true →
                 (length front ≤ i)%nat ∧
                 back !! (i - length front)%nat = Some a) as Hin_back.
  { intros i a Hi Ha. apply lookup_app_Some in Hi as [Hi|?]; [|done].
    pose proof (Forall_lookup_1 _ _ _ _ Hfront Hi). congruence. }
  split_and!.
  - unfold front, back. rewrite !sortByTitle_Permutation.
    apply filter_split_Permutation.
  - intros i j a b Hi Hj Ha Hb.
    apply Hin_front in Hi; [|done]. apply Hin_back in Hj as [Hj _]; [|done].
    apply lookup_lt_Some in Hi. lia.
  - intros i j a b Hi Hj Hlt Hsame. destruct (Todo.done a) eqn:Ha.
    + apply Hin_back in Hi as [Hle Hi]; [|done].
      apply Hin_back in Hj as [Hle' Hj]; [|done].
      apply (StronglySorted_lookup (compareByTitle Todo.title)
               back (i - length front) (j - length front) a b);
        [apply sortByTitle_sorted | done | done | lia].
    + apply Hin_front in Hi, Hj; [|done..].
      apply (StronglySorted_lookup (compareByTitle Todo.title)
               front i j a b); [apply sortByTitle_sorted | done..].
Qed.

(** X19. The constructor takes the lists the session already holds, an empty
    array included, and falls back to the seed data only when the session
    holds none.  It stores the lists it took in the session, so that an
    object built from that session later works on the same lists, whatever
    the seed data. *)
Theorem new_seeds_once {G : Type} (SeedData : list TodoList.t) (g : G)
    (session : Session) :
  ∃ sp session',
    new SeedData g session = (sp, session') ∧
    idGen sp = g ∧
    todoLists session' = Some (_todoLists sp) ∧
    (∀ stored, todoLists session = Some stored → _todoLists sp = stored) ∧
    (todoLists session = None → _todoLists sp = SeedData) ∧
    (∀ (otherSeed : list TodoList.t) (g' : G),
       new otherSeed g' session'
       = ({| _todoLists := _todoLists sp; idGen := g' |}, session')).
Proof.
  unfold new, deepCopy. eexists _, _. split; [reflexivity|]. simpl.
  split_and!; [done | done | | | done].
  - by intros stored ->.
  - by intros ->.
Qed.

End SortedTodos.

(** ** The effects at work on [sampleStore] *)

Lemma createTodoList_appends_witness :
  counterNextId (idGen sampleStore) = (4, 4) ∧
  Forall (λ l, TodoList.id l ≠ 4) (_todoLists sampleStore) ∧
  ∃ sp', createTodoList counterNextId "errands" sampleStore = (true, sp') ∧
         length (_todoLists sp') = 4%nat ∧
         loadTodoList 2 sp' = Some workList ∧
         loadTodoList 4 sp' = Some (TodoList.mk "errands" 4 []).
Proof.
  assert (Forall (λ l, TodoList.id l ≠ 4) (_todoLists sampleStore)) as Hfresh
    by (repeat constructor; discriminate).
  split; [reflexivity|]. split; [exact Hfresh|].
  destruct (createTodoList_appends counterNextId sampleStore "errands" 4 4
              eq_refl) as (sp' & Hrun & _ & Hlen & Hold & Hnew).
  exists sp'. split_and!; [exact Hrun | exact Hlen | | exact (Hnew Hfresh)].
  apply Hold. reflexivity.
Defined.

Lemma createTodoList_then_deleteTodoList_witness :
  counterNextId (idGen sampleStore) = (4, 4) ∧
  Forall (λ l, TodoList.id l ≠ 4) (_todoLists sampleStore) ∧
  ∃ sp', createTodoList counterNextId "errands" sampleStore = (true, sp') ∧
         deleteTodoList 4 sp'
           = (true, {| _todoLists := _todoLists sampleStore; idGen := 4 |}).
Proof.
  assert (Forall (λ l, TodoList.id l ≠ 4) (_todoLists sampleStore)) as Hfresh
    by (repeat constructor; discriminate).
  split; [reflexivity|]. split; [exact Hfresh|].
  exact (createTodoList_then_deleteTodoList counterNextId sampleStore
           "errands" 4 4 eq_refl Hfresh).
Defined.

Lemma addNewTodo_appends_witness :
  loadTodoList 3 sampleStore = Some doneList ∧
  counterNextId (idGen sampleStore) = (4, 4) ∧
  Forall (λ t, Todo.id t ≠ 4) (TodoList.todos doneList) ∧
  ∃ sp', addNewTodo counterNextId 3 "New" sampleStore = (true, sp') ∧
         loadTodoList 3 sp'
           = Some (TodoList.mk "apples" 3
                     [todo 1 "buy" true; todo 4 "New" false]) ∧
         loadTodo 3 4 sp' = Some (todo 4 "New" false).
Proof.
  assert (Forall (λ t, Todo.id t ≠ 4) (TodoList.todos doneList)) as Hfresh
    by (repeat constructor; discriminate).
  split; [reflexivity|]. split; [reflexivity|]. split; [exact Hfresh|].
  destruct (addNewTodo_appends counterNextId sampleStore 3 "New" 4 4 doneList
              eq_refl eq_refl) as (sp' & Hrun & _ & Hgrown & _ & _ & Hnew).
  exists sp'. split_and!; [exact Hrun | exact Hgrown | exact (Hnew Hfresh)].
Defined.

Lemma addNewTodo_then_deleteTodo_witness :
  loadTodoList 3 sampleStore = Some doneList ∧
  counterNextId (idGen sampleStore) = (4, 4) ∧
  Forall (λ t, Todo.id t ≠ 4) (TodoList.todos doneList) ∧
  ∃ sp', addNewTodo counterNextId 3 "New" sampleStore = (true, sp') ∧
         deleteTodo 3 4 sp'
           = (true, {| _todoLists := _todoLists sampleStore; idGen := 4 |}).
Proof.
  assert (Forall (λ t, Todo.id t ≠ 4) (TodoList.todos doneList)) as Hfresh
    by (repeat constructor; discriminate).
  split; [reflexivity|]. split; [reflexivity|]. split; [exact Hfresh|].
  exact (addNewTodo_then_deleteTodo counterNextId sampleStore 3 "New" 4 4
           doneList eq_refl eq_refl Hfresh).
Defined.

Lemma deleteTodo_removes_first_witness :
  loadTodoList 2 sampleStore = Some workList ∧
  loadTodo 2 2 sampleStore = Some (todo 2 "B" true) ∧
  ∃ pre post sp',
    TodoList.todos workList = pre ++ todo 2 "B" true :: post ∧
    deleteTodo 2 2 sampleStore = (true, sp') ∧
    loadTodoList 2 sp' = Some (TodoList.mk "Work" 2 (pre ++ post)).
Proof.
  split; [reflexivity|]. split; [reflexivity|].
  destruct (deleteTodo_removes_first sampleStore 2 2 workList
              (todo 2 "B" true) eq_refl eq_refl)
    as (pre & post & sp' & Hsplit & _ & Hrun & _ & Hafter & _).
  exists pre, post, sp'. split_and!; [exact Hsplit | exact Hrun | exact Hafter].
Defined.

Lemma deleteTodoList_removes_first_witness :
  loadTodoList 3 sampleStore = Some doneList ∧
  ∃ pre post sp',
    _todoLists sampleStore = pre ++ doneList :: post ∧
    deleteTodoList 3 sampleStore = (true, sp') ∧
    sp' = {| _todoLists := pre ++ post; idGen := idGen sampleStore |}.
Proof.
  split; [reflexivity|].
  destruct (deleteTodoList_removes_first sampleStore 3 doneList eq_refl)
    as (pre & post & sp' & Hsplit & _ & Hrun & Hsp' & _).
  exists pre, post, sp'. split_and!; [exact Hsplit | exact Hrun | exact Hsp'].
Defined.

Lemma markAllDone_marks_all_witness :
  loadTodoList 2 sampleStore = Some workList ∧
  ∃ sp' marked,
    markAllDone 2 sampleStore = (true, sp') ∧
    loadTodoList 2 sp' = Some marked ∧
    hasUndoneTodos marked = false ∧
    isDoneTodoList marked = true.
Proof.
  split; [reflexivity|].
  destruct (markAllDone_marks_all sampleStore 2 workList eq_refl)
    as (sp' & marked & Hrun & _ & Hafter & _ & _ & _ & _ & _ & Hnone & Hdone
        & _).
  exists sp', marked.
  split_and!; [exact Hrun | exact Hafter | exact Hnone |].
  apply Hdone. discriminate.
Defined.

Lemma renameTodoList_renames_witness :
  loadTodoList 1 sampleStore = Some emptyList ∧
  ∃ sp', renameTodoList 1 "Work" sampleStore = (true, sp') ∧
         loadTodoList 1 sp' = Some (TodoList.mk "Work" 1 []) ∧
         isUniqueList "Work" sp' = false.
Proof.
  split; [reflexivity|].
  destruct (renameTodoList_renames sampleStore 1 "Work" emptyList eq_refl)
    as (sp' & Hrun & _ & Hafter & Hused & _).
  exists sp'. split_and!; [exact Hrun | exact Hafter | exact Hused].
Defined.

Lemma renameTodoList_back_witness :
  loadTodoList 1 sampleStore = Some emptyList ∧
  ∃ sp', renameTodoList 1 "errands" sampleStore = (true, sp') ∧
         renameTodoList 1 "chores" sp' = (true, sampleStore).
Proof.
  split; [reflexivity|].
  exact (renameTodoList_back sampleStore 1 "errands" emptyList eq_refl).
Defined.

Lemma todo_level_methods_keep_lists_witness :
  TodoList.id <$> _todoLists (snd (deleteTodo 2 1 sampleStore))
    = [2; 3; 1] ∧
  TodoList.title <$> _todoLists (snd (deleteTodo 2 1 sampleStore))
    = ["Work"; "apples"; "chores"] ∧
  isUniqueList "Work" (snd (deleteTodo 2 1 sampleStore)) = false.
Proof.
  destruct (todo_level_methods_keep_lists counterNextId sampleStore 2 1 "New"
              (snd (deleteTodo 2 1 sampleStore)) (or_intror (or_introl eq_refl)))
    as (Hids & Htitles & Hunique).
  split_and!; [exact Hids | exact Htitles | exact (Hunique "Work")].
Defined.

Lemma distinct_list_ids_kept_witness :
  NoDup (TodoList.id <$> _todoLists sampleStore) ∧
  (fst (counterNextId (idGen sampleStore))
     ∉ (TodoList.id <$> _todoLists sampleStore)) ∧
  NoDup (TodoList.id <$> _todoLists (snd (deleteTodoList 3 sampleStore))) ∧
  NoDup (TodoList.id <$>
           _todoLists (snd (createTodoList counterNextId "errands" sampleStore))).
Proof.
  assert (NoDup (TodoList.id <$> _todoLists sampleStore)) as Hdistinct
    by (apply (bool_decide_unpack _); vm_compute; exact I).
  assert (fst (counterNextId (idGen sampleStore))
            ∉ (TodoList.id <$> _todoLists sampleStore)) as Hfresh
    by (apply (bool_decide_unpack _); vm_compute; exact I).
  destruct (distinct_list_ids_kept counterNextId sampleStore 3 1 "errands"
              Hdistinct) as (_ & _ & Hdelete & _ & _ & _ & Hcreate).
  split_and!; [exact Hdistinct | exact Hfresh | exact Hdelete |].
  exact (Hcreate Hfresh).
Defined.

Lemma toggleDoneTodo_undoes_done_list_witness :
  loadTodoList 3 sampleStore = Some doneList ∧
  isDoneTodoList doneList = true ∧
  loadTodo 3 1 sampleStore = Some (todo 1 "buy" true) ∧
  ∃ sp' toggled,
    toggleDoneTodo 3 1 sampleStore = (true, sp') ∧
    loadTodo 3 1 sp' = Some (todo 1 "buy" false) ∧
    loadTodoList 3 sp' = Some toggled ∧
    hasUndoneTodos toggled = true ∧
    isDoneTodoList toggled = false.
Proof.
  split; [reflexivity|]. split; [reflexivity|]. split; [reflexivity|].
  exact (toggleDoneTodo_undoes_done_list sampleStore 3 1 doneList
           (todo 1 "buy" true) eq_refl eq_refl eq_refl).
Defined.
